(** * Sigma clipping, staged MAP optimisation and the notebook driver

    A shallow embedding of the control logic of the case-study notebooks
    ([docs/notebooks/eb.ipynb], [docs/notebooks/tess.ipynb],
    [docs/notebooks/ttv.ipynb], the multi-instrument light-curve notebook)
    and of the driver script [run_notebooks.sh].

    Numbers: the notebooks compute in float64.  They are modelled by the
    real numbers [R], so that [np.sqrt], [np.abs] and [np.median] read as in
    the source; rounding, infinities and NaN are outside the model.  An
    executable mirror over the rationals [Q] (module [QExec]) is proved to
    agree with the real-number definitions on rational data and is used to
    evaluate the loops on concrete inputs.  The properties stated are
    about control flow, counts and order comparisons.

    External collaborators (the probabilistic model, [xo.optimize],
    [xo.eval_in_model], the programs run by the shell script) are
    parameters of the sections that use them. *)

From Stdlib Require Import List Bool Arith Lia String.
From Stdlib Require Import ZArith QArith Qreals Reals Lra.
From Stdlib Require Import Permutation Sorted.
Import ListNotations.

(** ** NumPy array primitives *)

Section Arrays.
Context {A : Type}.

(** [a[mask]]: boolean-mask indexing.  NumPy raises when the two lengths
    differ; every call below passes arrays of one length. *)
Fixpoint select (mask : list bool) (a : list A) : list A :=
  match mask, a with
  | m :: mask', v :: a' =>
      if m then v :: select mask' a' else select mask' a'
  | _, _ => []
  end.
End Arrays.

(** [mask.sum()] for a boolean array. *)
Definition count_true (mask : list bool) : nat :=
  List.length (filter (fun b => b) mask).

(** [mask[mask] = new]: the entries of [mask] that are [True] are
    overwritten, in order, by the entries of [new].  NumPy raises when
    [len(new) <> mask.sum()]; the loop always assigns an array of that
    length (lemma [clip_pass_new_length]); here a missing entry leaves the
    old one. *)
Fixpoint assign_masked (mask new : list bool) : list bool :=
  match mask with
  | [] => []
  | false :: mask' => false :: assign_masked mask' new
  | true :: mask' =>
      match new with
      | b :: new' => b :: assign_masked mask' new'
      | [] => true :: assign_masked mask' []
      end
  end.

(** [np.ones(n, dtype=bool)] *)
Definition ones (n : nat) : list bool := repeat true n.

(** Pointwise inclusion of boolean masks of one length. *)
Definition mask_subset (m1 m2 : list bool) : Prop :=
  List.length m1 = List.length m2 /\
  forall i, nth i m1 false = true -> nth i m2 false = true.

(** [a] is obtained from [b] by deleting entries (order kept). *)
Inductive sublist {A : Type} : list A -> list A -> Prop :=
| sublist_nil : sublist [] []
| sublist_keep : forall v a b, sublist a b -> sublist (v :: a) (v :: b)
| sublist_drop : forall v a b, sublist a b -> sublist a (v :: b).

(** ** Sorting and the median *)

Section Sort.
Context {A : Type} (leb : A -> A -> bool).

Fixpoint insert (v : A) (l : list A) : list A :=
  match l with
  | [] => [v]
  | h :: t => if leb v h then v :: l else h :: insert v t
  end.

Fixpoint sort (l : list A) : list A :=
  match l with
  | [] => []
  | h :: t => insert h (sort t)
  end.
End Sort.

Open Scope R_scope.

Definition Rleb (a b : R) : bool := if Rle_dec a b then true else false.
Definition Rltb (a b : R) : bool := if Rlt_dec a b then true else false.

(** [np.median(a)]: the middle element of the sorted array, the mean of the
    two middle elements when the length is even.  (NumPy returns NaN for an
    empty array; the model returns 0, and every use below then maps over an
    empty array.) *)
Definition median (a : list R) : R :=
  let s := sort Rleb a in
  let n := List.length s in
  if Nat.even n
  then (nth (n / 2 - 1) s 0 + nth (n / 2) s 0) / 2
  else nth (n / 2) s 0.

(** [a - b] on arrays of one length. *)
Fixpoint vsub (a b : list R) : list R :=
  match a, b with
  | u :: a', v :: b' => (u - v) :: vsub a' b'
  | _, _ => []
  end.

(** ** The clipping masks *)

(** eb.ipynb, [sigma_clip], and the multi-instrument loop:
<<
    sigma = np.sqrt(np.median((resid - np.median(resid)) ** 2))
    ... np.abs(resid - np.median(resid)) < 7 * sigma
>> *)
Definition robust_sigma (resid : list R) : R :=
  sqrt (median (map (fun r => (r - median resid) ^ 2) resid)).

Definition clip_mask (resid : list R) : list bool :=
  let sigma := robust_sigma resid in
  map (fun r => Rltb (Rabs (r - median resid)) (7 * sigma)) resid.

(** tess.ipynb, outlier-rejection cell:
<<
    rms = np.sqrt(np.median(resid ** 2))
    mask = np.abs(resid) < 5 * rms
>> *)
Definition tess_rms (resid : list R) : R :=
  sqrt (median (map (fun r => r ^ 2) resid)).

Definition tess_mask (resid : list R) : list bool :=
  let rms := tess_rms resid in
  map (fun r => Rltb (Rabs r) (5 * rms)) resid.

(** The clipping rule in the words of the specification, for a multiplier
    [k]: centre on the median, scale by the root of the median squared
    deviation, keep what is strictly inside [k] scales. *)
Definition spec_keeps (k : R) (resid : list R) (r : R) : Prop :=
  Rabs (r - median resid)
  < k * sqrt (median (map (fun r' => (r' - median resid) ^ 2) resid)).

(** ** eb.ipynb: [sigma_clip] *)

(** What [sigma_clip] leaves behind: the final [mask], the mask the returned
    [model] was built on ([build_model] copies [x[mask]] and [y[mask]] when
    it is called), the number of [build_model] calls, and whether the loop
    left through [break]. *)
Record clip_result : Type := {
  final_mask : list bool;
  model_mask : list bool;
  passes : nat;
  converged : bool
}.

Section EB.
(** The light curve (module-level [x], [y]). *)
Variables x y : list R.

(** [build_model(mask)] followed by [xo.eval_in_model(model.model_lc(t) +
    model.gp_lc.predict(), map_soln)]: the model is conditioned on
    [x[mask]], [y[mask]] and predicts the flux at a time [t]. *)
Variable fit : list R -> list R -> R -> R.

Definition build_model (mask : list bool) : R -> R :=
  fit (select mask x) (select mask y).

(** The residuals of one pass: [resid = y[mask] - mdl]. *)
Definition residuals (mask : list bool) : list R :=
  let mdl := map (build_model mask) (select mask x) in
  vsub (select mask y) mdl.

(** One pass of the loop body up to the assignment [mask[mask] = ...]. *)
Definition clip_pass (mask : list bool) : list bool :=
  assign_masked mask (clip_mask (residuals mask)).

(** [for i in range(n)]: the loop body, with [break] when no point was
    clipped in this pass.  [fits] counts the calls of [build_model]. *)
Fixpoint sigma_clip_loop (n : nat) (mask : list bool) (num fits : nat)
         (model : list bool) : clip_result :=
  match n with
  | O => {| final_mask := mask; model_mask := model;
            passes := fits; converged := false |}
  | S n' =>
      let mask' := clip_pass mask in
      if Nat.eqb num (count_true mask')
      then {| final_mask := mask'; model_mask := mask;
              passes := S fits; converged := true |}
      else sigma_clip_loop n' mask' (count_true mask') (S fits) mask
  end.

Definition sigma_clip : clip_result :=
  let mask := ones (List.length x) in
  sigma_clip_loop 10 mask (List.length mask) 0 [].
End EB.

(** ** The multi-instrument notebook: the clipping loop *)

(** One entry of [datasets]: [[t, y, yerr, texp]]. *)
Record dataset : Type := {
  ds_t : list R;
  ds_y : list R;
  ds_yerr : list R;
  ds_texp : R
}.

(** [datasets]: an [OrderedDict] from instrument name to its arrays. *)
Definition datasets : Type := list (string * dataset).

Record multi_result : Type := {
  final_data : datasets;
  last_masks : list (string * list bool);
  multi_passes : nat;
  multi_converged : bool
}.

Section Multi.
(** Model construction, the staged optimisation and
    [xo.eval_in_model(gp_preds_with_mean[name], map_soln)]: the prediction
    for instrument [name] at time [t], from the current [datasets]. *)
Variable fit : datasets -> string -> R -> R.

Definition multi_mask (ds : datasets) (name : string) (d : dataset)
  : list bool :=
  let mdl := map (fit ds name) (ds_t d) in
  let resid := vsub (ds_y d) mdl in
  clip_mask resid.

(** [masks]: one mask per instrument. *)
Definition multi_masks (ds : datasets) : list (string * list bool) :=
  map (fun nd => (fst nd, multi_mask ds (fst nd) (snd nd))) ds.

(** [clipped[name] = num[name] - masks[name].sum()] with
    [num[name] = len(datasets[name][0])]. *)
Definition multi_clipped (ds : datasets) : list nat :=
  map (fun nd => (List.length (ds_t (snd nd))
                  - count_true (multi_mask ds (fst nd) (snd nd)))%nat) ds.

(** The [else] branch: the three arrays of every instrument are indexed
    by that instrument's mask; [texp] is left alone. *)
Definition truncate (ds : datasets) : datasets :=
  map (fun nd =>
         let m := multi_mask ds (fst nd) (snd nd) in
         (fst nd, {| ds_t := select m (ds_t (snd nd));
                     ds_y := select m (ds_y (snd nd));
                     ds_yerr := select m (ds_yerr (snd nd));
                     ds_texp := ds_texp (snd nd) |})) ds.

(** [all(c < 10 for c in clipped.values())] *)
Definition all_below_10 (clipped : list nat) : bool :=
  forallb (fun c => Nat.ltb c 10) clipped.

Fixpoint multi_loop (n : nat) (ds : datasets) (fits : nat)
         (masks : list (string * list bool)) : multi_result :=
  match n with
  | O => {| final_data := ds; last_masks := masks;
            multi_passes := fits; multi_converged := false |}
  | S n' =>
      if all_below_10 (multi_clipped ds)
      then {| final_data := ds; last_masks := multi_masks ds;
              multi_passes := S fits; multi_converged := true |}
      else multi_loop n' (truncate ds) (S fits) (multi_masks ds)
  end.

Definition multi_sigma_clip (ds : datasets) : multi_result :=
  multi_loop 10 ds 0 [].
End Multi.

(** ** Staged MAP optimisation *)

Section StagedMAP.
(** [map_soln]: a dictionary from variable name to value. *)
Variable point : Type.

(** The log-posterior of the model under construction. *)
Variable logp : point -> R.

(** [xo.optimize(start, vars)]; [None] stands for the call without
    [vars], which optimises every free variable. *)
Variable optimize : point -> option (list string) -> point.

Local Open Scope string_scope.

(** eb.ipynb, [build_model]. *)
Definition eb_optimize (test_point : point) : point :=
  let map_soln := test_point in
  let map_soln := optimize map_soln (Some ["mean_rv"; "q"]) in
  let map_soln :=
    optimize map_soln
      (Some ["mean_rv"; "sigma_rv1"; "sigma_rv2"; "S_tot_rv"; "ell_rv"]) in
  let map_soln := optimize map_soln (Some ["mean_lc"; "R1"; "k"; "s"; "b"]) in
  let map_soln :=
    optimize map_soln (Some ["mean_lc"; "R1"; "k"; "s"; "b"; "u1"; "u2"]) in
  let map_soln :=
    optimize map_soln (Some ["mean_lc"; "sigma_lc"; "S_tot_lc"; "ell_lc"]) in
  let map_soln := optimize map_soln (Some ["t0"; "period"]) in
  optimize map_soln None.

(** ttv.ipynb; [transit_times] is the list [tts_0, tts_1]. *)
Definition transit_times : list string := ["tts_0"; "tts_1"].

Definition ttv_optimize (test_point : point) : point :=
  let map_soln := test_point in
  let map_soln := optimize map_soln (Some transit_times) in
  let map_soln := optimize map_soln (Some ["r"; "b"]) in
  let map_soln := optimize map_soln (Some transit_times) in
  optimize map_soln None.

(** The multi-instrument notebook: [parameters[name]] and
    [parameters[f"{name}_noise"]], variables of the sub-model [name]. *)
Definition parameters (name : string) : list string :=
  [name ++ "_mean"; name ++ "_u"; name ++ "_approx_depth"].

Definition noise_parameters (name : string) : list string :=
  [name ++ "_sigma"; name ++ "_S_tot"].

Definition multi_optimize (names : list string) (test_point : point)
  : point :=
  let map_soln := test_point in
  let map_soln :=
    fold_left (fun soln name => optimize soln (Some (parameters name)))
              names map_soln in
  let map_soln :=
    fold_left
      (fun soln name =>
         let soln :=
           optimize soln (Some (parameters name ++ ["dur"; "b"])%list) in
         optimize soln (Some (noise_parameters name)))
      names map_soln in
  optimize map_soln None.
End StagedMAP.

(** ** run_notebooks.sh *)

Module Shell.

(** The commands of the script, one constructor per command, in the
    order in which the shell runs them. *)
Inductive command : Type :=
| conda_hook            (* __conda_setup="$('conda' 'shell.bash' 'hook' ...)" *)
| eval_conda_setup
| unset_conda_setup
| conda_activate_base
| git_checkout_master
| git_pull
| rm_exoplanet
| git_clone
| rm_env
| conda_env_update
| conda_activate_env
| pip_install_requirements
| pip_install_exoplanet
| set_cachedir          (* CACHEDIR=`pwd`/theano_cache *)
| rm_cachedir
| export_theano_flags
| git_branch_delete
| git_checkout_branch
| cd_docs
| conda_env_export
| python_run_notebooks  (* DISPLAY=:99.0 python run_notebooks.py $* *)
| cp_notebook_setup
| git_add_setup
| git_add_notebooks
| git_commit
| cat_github_api_key    (* `cat .github_api_key`, an argument of git push *)
| git_push
| cd_up
| git_checkout_master_again
| conda_deactivate
| mail_finished.

(** A line of the script. *)
Inductive step : Type :=
| SetE                                  (* set -e *)
| Simple (line : nat) (c : command)     (* c *)
| OrTrue (line : nat) (c : command)     (* c || true *)
| Subst (line : nat) (c : command).     (* `c` in the words of the command
                                           that follows on the line *)

Definition script : list step :=
  [ SetE;
    Simple 5 conda_hook;
    Simple 6 eval_conda_setup;
    Simple 7 unset_conda_setup;
    Simple 8 conda_activate_base;
    Simple 10 git_checkout_master;
    Simple 11 git_pull;
    Simple 12 rm_exoplanet;
    Simple 13 git_clone;
    Simple 15 rm_env;
    Simple 16 conda_env_update;
    Simple 17 conda_activate_env;
    Simple 18 pip_install_requirements;
    Simple 19 pip_install_exoplanet;
    Simple 21 set_cachedir;
    Simple 22 rm_cachedir;
    Simple 23 export_theano_flags;
    OrTrue 25 git_branch_delete;
    Simple 26 git_checkout_branch;
    Simple 28 cd_docs;
    Simple 29 conda_env_export;
    Simple 31 python_run_notebooks;
    Simple 33 cp_notebook_setup;
    Simple 34 git_add_setup;
    Simple 35 git_add_notebooks;
    Simple 37 git_commit;
    Subst 38 cat_github_api_key;
    Simple 38 git_push;
    Simple 40 cd_up;
    Simple 41 git_checkout_master_again;
    Simple 42 conda_deactivate;
    Simple 44 mail_finished ].

(** The shell: whether [errexit] is on, the commands run so far (latest
    first) and the status of the last one. *)
Record shell : Type := {
  errexit : bool;
  ran : list command;
  last_status : nat
}.

Definition start : shell :=
  {| errexit := false; ran := []; last_status := 0 |}.

Section Exec.
(** The exit status of each command: decided by the environment.  The
    commands are taken to leave the options of the shell alone. *)
Variable status : command -> nat.

(** Runs the lines in order.  The result is the shell at the end and
    whether the end of the script was reached.  With [errexit] a simple
    command that fails ends the shell; the left side of [||] is exempt,
    and [true] succeeds.  A command substitution in the words of a
    command runs when the words are expanded, before the command; the
    status of the line is that of the command, so a substitution that
    fails does not end the shell.  (The substitutions of lines 5 and 21
    are the whole right side of an assignment, whose status is theirs:
    those lines are simple commands.) *)
Fixpoint exec (sh : shell) (steps : list step) : shell * bool :=
  match steps with
  | [] => (sh, true)
  | SetE :: rest =>
      exec {| errexit := true; ran := ran sh; last_status := 0 |} rest
  | Simple _ c :: rest =>
      let sh' := {| errexit := errexit sh; ran := c :: ran sh;
                    last_status := status c |} in
      if Nat.eqb (status c) 0 then exec sh' rest
      else if errexit sh then (sh', false)
      else exec sh' rest
  | OrTrue _ c :: rest =>
      exec {| errexit := errexit sh; ran := c :: ran sh;
              last_status := 0 |} rest
  | Subst _ c :: rest =>
      exec {| errexit := errexit sh; ran := c :: ran sh;
              last_status := last_status sh |} rest
  end.

Definition run_notebooks_sh : shell * bool := exec start script.
End Exec.

(** The publishing and notification commands. *)
Definition publishes (c : command) : bool :=
  match c with
  | git_add_setup | git_add_notebooks | git_commit | git_push
  | mail_finished => true
  | _ => false
  end.

(** The commands that follow the notebook run in the file. *)
Definition after_notebooks (c : command) : bool :=
  match c with
  | cp_notebook_setup | git_add_setup | git_add_notebooks | git_commit
  | cat_github_api_key | git_push | cd_up | git_checkout_master_again
  | conda_deactivate | mail_finished => true
  | _ => false
  end.

(** The commands named by a list of lines. *)
Definition commands (steps : list step) : list command :=
  flat_map (fun s => match s with
                     | SetE => []
                     | Simple _ c | OrTrue _ c | Subst _ c => [c]
                     end) steps.

(** Two environments: the notebook run fails; only the commit fails. *)
Definition notebooks_fail (c : command) : nat :=
  match c with python_run_notebooks => 1 | _ => 0 end.

Definition commit_fails (c : command) : nat :=
  match c with git_commit => 1 | _ => 0 end.

End Shell.

(** ** Executable mirror over the rationals *)

Module QExec.
Local Open Scope Q_scope.

Definition Qltb (a b : Q) : bool := negb (Qle_bool b a).

Definition median (a : list Q) : Q :=
  let s := sort Qle_bool a in
  let n := List.length s in
  if Nat.even n
  then (nth (n / 2 - 1)%nat s 0 + nth (n / 2)%nat s 0) / 2
  else nth (n / 2)%nat s 0.

Fixpoint vsub (a b : list Q) : list Q :=
  match a, b with
  | u :: a', v :: b' => (u - v) :: vsub a' b'
  | _, _ => []
  end.

(** [|d| < k * sqrt v], decided on the squares; [k2] is [k * k]. *)
Definition within (k2 d v : Q) : bool :=
  Qltb 0 v && Qltb (d * d) (k2 * v).

(** The squares of [sigma] and of [rms]. *)
Definition robust_var (resid : list Q) : Q :=
  let m := median resid in
  median (map (fun r => (r - m) * (r - m)) resid).

Definition tess_var (resid : list Q) : Q :=
  median (map (fun r => r * r) resid).

Definition clip_mask (resid : list Q) : list bool :=
  let m := median resid in
  let v := robust_var resid in
  map (fun r => within 49 (r - m) v) resid.

Definition tess_mask (resid : list Q) : list bool :=
  let v := tess_var resid in
  map (fun r => within 25 r v) resid.

Section EB.
Variables x y : list Q.
Variable fit : list Q -> list Q -> Q -> Q.

Definition residuals (mask : list bool) : list Q :=
  let mdl := map (fit (select mask x) (select mask y)) (select mask x) in
  vsub (select mask y) mdl.

Definition clip_pass (mask : list bool) : list bool :=
  assign_masked mask (clip_mask (residuals mask)).

Fixpoint sigma_clip_loop (n : nat) (mask : list bool) (num fits : nat)
         (model : list bool) : clip_result :=
  match n with
  | O => {| final_mask := mask; model_mask := model;
            passes := fits; converged := false |}
  | S n' =>
      let mask' := clip_pass mask in
      if Nat.eqb num (count_true mask')
      then {| final_mask := mask'; model_mask := mask;
              passes := S fits; converged := true |}
      else sigma_clip_loop n' mask' (count_true mask') (S fits) mask
  end.

Definition sigma_clip : clip_result :=
  let mask := ones (List.length x) in
  sigma_clip_loop 10 mask (List.length mask) 0 [].
End EB.

Record qdataset : Type := {
  q_t : list Q;
  q_y : list Q;
  q_yerr : list Q;
  q_texp : Q
}.

Definition qdatasets : Type := list (string * qdataset).

Record qmulti_result : Type := {
  qfinal_data : qdatasets;
  qlast_masks : list (string * list bool);
  qmulti_passes : nat;
  qmulti_converged : bool
}.

Section Multi.
Variable fit : qdatasets -> string -> Q -> Q.

Definition multi_mask (ds : qdatasets) (name : string) (d : qdataset)
  : list bool :=
  clip_mask (vsub (q_y d) (map (fit ds name) (q_t d))).

Definition multi_masks (ds : qdatasets) : list (string * list bool) :=
  map (fun nd => (fst nd, multi_mask ds (fst nd) (snd nd))) ds.

Definition multi_clipped (ds : qdatasets) : list nat :=
  map (fun nd => (List.length (q_t (snd nd))
                  - count_true (multi_mask ds (fst nd) (snd nd)))%nat) ds.

Definition truncate (ds : qdatasets) : qdatasets :=
  map (fun nd =>
         let m := multi_mask ds (fst nd) (snd nd) in
         (fst nd, {| q_t := select m (q_t (snd nd));
                     q_y := select m (q_y (snd nd));
                     q_yerr := select m (q_yerr (snd nd));
                     q_texp := q_texp (snd nd) |})) ds.

Fixpoint multi_loop (n : nat) (ds : qdatasets) (fits : nat)
         (masks : list (string * list bool)) : qmulti_result :=
  match n with
  | O => {| qfinal_data := ds; qlast_masks := masks;
            qmulti_passes := fits; qmulti_converged := false |}
  | S n' =>
      if all_below_10 (multi_clipped ds)
      then {| qfinal_data := ds; qlast_masks := multi_masks ds;
              qmulti_passes := S fits; qmulti_converged := true |}
      else multi_loop n' (truncate ds) (S fits) (multi_masks ds)
  end.

Definition multi_sigma_clip (ds : qdatasets) : qmulti_result :=
  multi_loop 10 ds 0 [].
End Multi.

(** Rational data read as real data. *)
Definition to_R (d : qdataset) : dataset :=
  {| ds_t := map Q2R (q_t d);
     ds_y := map Q2R (q_y d);
     ds_yerr := map Q2R (q_yerr d);
     ds_texp := Q2R (q_texp d) |}.

Definition to_Rs (ds : qdatasets) : datasets :=
  map (fun nd => (fst nd, to_R (snd nd))) ds.

Definition result_to_R (r : qmulti_result) : multi_result :=
  {| final_data := to_Rs (qfinal_data r);
     last_masks := qlast_masks r;
     multi_passes := qmulti_passes r;
     multi_converged := qmulti_converged r |}.
End QExec.

(** ** Predicates used by the statements *)

(** One instrument's arrays after a truncation, against the arrays before:
    same name, same exposure time, and each array a sub-array. *)
Definition narrowed (after before : string * dataset) : Prop :=
  fst after = fst before
  /\ ds_texp (snd after) = ds_texp (snd before)
  /\ sublist (ds_t (snd after)) (ds_t (snd before))
  /\ sublist (ds_y (snd after)) (ds_y (snd before))
  /\ sublist (ds_yerr (snd after)) (ds_yerr (snd before)).

(** The rule of tess.ipynb, pointwise: no centring, multiplier 5. *)
Definition tess_keeps (resid : list R) (r : R) : Prop :=
  Rabs r < 5 * sqrt (median (map (fun r' => r' ^ 2) resid)).

(** A mask function follows the centred rule of the specification for some
    fixed multiplier between 5 and 7. *)
Definition follows_spec_rule (mask_of : list R -> list bool) : Prop :=
  exists k : R, 5 <= k <= 7 /\
    forall resid,
      Forall2 (fun b r => b = true <-> spec_keeps k resid r)
              (mask_of resid) resid.

(** ** Sample data *)

(** Residuals around 11 with one point 9 away. *)
Definition offset_residuals : list Q :=
  [10; 11; 12; 10; 11; 12; 11; 20]%Q.


(** A model that predicts zero flux whatever it is trained on. *)
Definition flat_fit : list R -> list R -> R -> R := fun _ _ _ => 0.
Definition flat_fitQ : list Q -> list Q -> Q -> Q := fun _ _ _ => 0%Q.
Definition flat_multi_fit : datasets -> string -> R -> R := fun _ _ _ => 0.
Definition flat_multi_fitQ : QExec.qdatasets -> string -> Q -> Q :=
  fun _ _ _ => 0%Q.

(** Three quiet points. *)
Definition quiet_x : list Q := [0; 1; 2]%Q.
Definition quiet_y : list Q := [1; 2; 3]%Q.

Definition quiet_datasets : QExec.qdatasets :=
  [ ("Kepler"%string,
     {| QExec.q_t := [0; 1; 2]%Q; QExec.q_y := [1; 2; 3]%Q;
        QExec.q_yerr := [1; 1; 1]%Q; QExec.q_texp := 1%Q |});
    ("TESS"%string,
     {| QExec.q_t := [5; 6; 7; 8]%Q; QExec.q_y := [2; 1; 2; 3]%Q;
        QExec.q_yerr := [1; 1; 1; 1]%Q; QExec.q_texp := 1%Q |}) ].

(** A toy posterior on one real parameter, with its maximum at 0, and an
    optimiser that halves the distance to it. *)
Definition toy_logp (p : R) : R := - (p * p).
Definition toy_optimize (p : R) (_ : option (list string)) : R := p / 2.

(** All arrays of every instrument have one length. *)
Definition well_formed (ds : datasets) : Prop :=
  Forall (fun nd : string * dataset =>
            List.length (ds_y (snd nd)) = List.length (ds_t (snd nd))
            /\ List.length (ds_yerr (snd nd)) = List.length (ds_t (snd nd)))
         ds.

(** Every entry of a mask is [True]. *)
Definition all_true (mask : list bool) : bool := forallb (fun b => b) mask.

(** Running a loop again on what it returned. *)
Definition rerun (x y : list R) (fit : list R -> list R -> R -> R)
  : clip_result :=
  let mask := final_mask (sigma_clip x y fit) in
  sigma_clip (select mask x) (select mask y) fit.

Definition multi_rerun (fit : datasets -> string -> R -> R) (ds : datasets)
  : multi_result :=
  multi_sigma_clip fit (final_data (multi_sigma_clip fit ds)).

(** Every array of every instrument is empty. *)
Definition all_empty (ds : datasets) : Prop :=
  Forall (fun nd : string * dataset =>
            ds_t (snd nd) = [] /\ ds_y (snd nd) = [] /\ ds_yerr (snd nd) = [])
         ds.

(** [h] points at [a] and [h] points at [-a]. *)
Definition pair_level (a : Q) (h : nat) : list Q :=
  (repeat a h ++ repeat (- a)%Q h)%list.

(** Observation times [0, 1, ..., n-1]. *)
Definition times (n : nat) : list Q :=
  map (fun i => inject_Z (Z.of_nat i)) (seq 0 n).

(** Nine fluxes: three quiet ones, two at distance 10, four at distance
    100. *)
Definition nested_small_y : list Q :=
  [-1; 0; 1; -10; 10; -100; 100; -100; 100]%Q.

(** 254 fluxes in twelve levels at distances 1, 10, ..., 10^11 from zero;
    the level sizes are chosen so that, with every level above it removed,
    the median squared deviation sits one level below the outermost one. *)
Definition nested_y : list Q :=
  flat_map (fun eh : nat * nat =>
              pair_level (inject_Z (10 ^ Z.of_nat (fst eh))) (snd eh))
           [(0, 2); (1, 1); (2, 2); (3, 2); (4, 4); (5, 4); (6, 8); (7, 8);
            (8, 16); (9, 16); (10, 32); (11, 32)]%nat.

(** One instrument, 30 points, nine of them far off. *)
Definition flagged_y : list Q :=
  (repeat (-1) 7 ++ repeat 0 7 ++ repeat 1 7 ++ repeat 100 9)%Q%list.

Definition flagged_datasets : QExec.qdatasets :=
  [ ("Kepler"%string,
     {| QExec.q_t := times 30; QExec.q_y := flagged_y;
        QExec.q_yerr := repeat 1%Q 30; QExec.q_texp := 1%Q |}) ].

(** One instrument, 42 points in three nested levels, and the 12 points of
    the innermost level. *)
Definition nested_datasets : QExec.qdatasets :=
  [ ("Kepler"%string,
     {| QExec.q_t := times 42;
        QExec.q_y :=
          (pair_level 1 6 ++ pair_level 10 5 ++ pair_level 100 10)%list;
        QExec.q_yerr := repeat 1%Q 42; QExec.q_texp := 1%Q |}) ].

(** One instrument, 542 points in twelve nested levels at distances 1, 10,
    ..., 10^11 from zero.  Every level but the two innermost has at least
    10 points, and the sizes are such that, with every level above it
    removed, the median squared deviation sits one level below the
    outermost one: each pass removes the outermost level. *)
Definition deep_y : list Q :=
  flat_map (fun eh : nat * nat =>
              pair_level (inject_Z (10 ^ Z.of_nat (fst eh))) (snd eh))
           [(0, 3); (1, 3); (2, 5); (3, 5); (4, 7); (5, 10); (6, 14);
            (7, 20); (8, 28); (9, 40); (10, 56); (11, 80)]%nat.

Definition deep_datasets : QExec.qdatasets :=
  [ ("Kepler"%string,
     {| QExec.q_t := times 542; QExec.q_y := deep_y;
        QExec.q_yerr := repeat 1%Q 542; QExec.q_texp := 1%Q |}) ].

Definition nested_survivors : QExec.qdatasets :=
  [ ("Kepler"%string,
     {| QExec.q_t := times 12; QExec.q_y := pair_level 1 6;
        QExec.q_yerr := repeat 1%Q 12; QExec.q_texp := 1%Q |}) ].

(** The number of points of each instrument. *)
Definition sizes (ds : QExec.qdatasets) : list nat :=
  map (fun nd : string * QExec.qdataset => List.length (QExec.q_t (snd nd)))
      ds.

(** One instrument whose [n] fluxes are all zero. *)
Definition constant_datasets (n : nat) : datasets :=
  [ ("Kepler"%string,
     {| ds_t := repeat 0 n; ds_y := repeat 0 n; ds_yerr := repeat 0 n;
        ds_texp := 1 |}) ].

(** ** The reference transit time of the multi-instrument notebook *)

(** [np.round]: the nearest integer, a half going to the even neighbour. *)
Definition np_round (v : R) : R :=
  let f := Zfloor v in
  let d := v - IZR f in
  if Rltb d (1 / 2) then IZR f
  else if Rltb (1 / 2) d then IZR f + 1
  else if Z.even f then IZR f else IZR f + 1.

(** [np.min(a)] and [np.max(a)]; NumPy raises on an empty array, and so do
    Python's [min] and [max] on an empty sequence: [None]. *)
Fixpoint np_min (a : list R) : option R :=
  match a with
  | [] => None
  | v :: a' =>
      match np_min a' with
      | None => Some v
      | Some m => Some (Rmin v m)
      end
  end.

Fixpoint np_max (a : list R) : option R :=
  match a with
  | [] => None
  | v :: a' =>
      match np_max a' with
      | None => Some v
      | Some m => Some (Rmax v m)
      end
  end.

(** The values of a generator [f(x) for x in xs]; an element that raises
    makes the whole expression raise. *)
Fixpoint collect {A : Type} (f : A -> option R) (xs : list A)
  : option (list R) :=
  match xs with
  | [] => Some []
  | v :: xs' =>
      match f v, collect f xs' with
      | Some r, Some rs => Some (r :: rs)
      | _, _ => None
      end
  end.

(** The multi-instrument notebook:
<<
    x_min = min(np.min(x) for x, _, _, _ in datasets.values())
    x_max = max(np.max(x) for x, _, _, _ in datasets.values())
    x_mid = 0.5 * (x_min + x_max)
    t0_ref = lit_t0 + lit_period * np.round((x_mid - lit_t0) / lit_period)
>> *)
Definition x_min (ds : datasets) : option R :=
  match collect (fun nd : string * dataset => np_min (ds_t (snd nd))) ds with
  | Some mins => np_min mins
  | None => None
  end.

Definition x_max (ds : datasets) : option R :=
  match collect (fun nd : string * dataset => np_max (ds_t (snd nd))) ds with
  | Some maxs => np_max maxs
  | None => None
  end.

Definition x_mid (ds : datasets) : option R :=
  match x_min ds, x_max ds with
  | Some lo, Some hi => Some (0.5 * (lo + hi))
  | _, _ => None
  end.

Definition lit_period : R := 4.887803076.
Definition lit_t0 : R := 124.8130808.

Definition reference_time (t0 period mid : R) : R :=
  t0 + period * np_round ((mid - t0) / period).

Definition t0_ref (ds : datasets) : option R :=
  match x_mid ds with
  | Some mid => Some (reference_time lit_t0 lit_period mid)
  | None => None
  end.

(** ** tess.ipynb: aperture selection *)

(** [msk[p] = True] on the flattened image.  (An index outside the image
    makes NumPy raise; [np.argsort] only yields indices of the image.) *)
Fixpoint set_true (p : nat) (msk : list bool) {struct msk} : list bool :=
  match msk, p with
  | [], _ => []
  | _ :: msk', O => true :: msk'
  | b :: msk', S p' => b :: set_true p' msk'
  end.

(** The candidate aperture of the [i] brightest pixels:
<<
    msk = np.zeros_like(mean_img, dtype=bool)
    msk[np.unravel_index(order[:i], mean_img.shape)] = True
>>
    [npix] is the number of pixels of the image and [order] the pixel
    indices sorted by decreasing median brightness. *)
Definition aperture (npix : nat) (order : list nat) (i : nat) : list bool :=
  fold_left (fun msk p => set_true p msk) (firstn i order)
            (repeat false npix).

(** [np.argmin(a)]: the first index of the smallest value; NumPy raises on
    an empty array. *)
Fixpoint argmin_from (best : R) (best_i i : nat) (a : list R) : nat :=
  match a with
  | [] => best_i
  | v :: a' =>
      if Rltb v best then argmin_from v i (S i) a'
      else argmin_from best best_i (S i) a'
  end.

Definition np_argmin (a : list R) : option nat :=
  match a with
  | [] => None
  | v :: a' => Some (argmin_from v 0 1 a')
  end.

(** [np.sum(a)] *)
Definition np_sum (a : list R) : R := fold_left Rplus a 0.

(** [a / b] on arrays of one length. *)
Fixpoint vdiv (a b : list R) : list R :=
  match a, b with
  | u :: a', v :: b' => (u / v) :: vdiv a' b'
  | _, _ => []
  end.

Section Aperture.
(** The cadences of the target pixel file, each a flattened image. *)
Variable flux : list (list R).
Variable npix : nat.
Variable order : list nat.

(** [savgol_filter(f, 1001, polyorder=5)] of SciPy. *)
Variable savgol_filter : list R -> list R.

(** [estimate_scatter_with_mask] *)
Definition estimate_scatter_with_mask (mask : list bool) : R :=
  let f := map (fun frame => np_sum (select mask frame)) flux in
  let smooth := savgol_filter f in
  1e6 * sqrt (median (map (fun r => (r - 1) ^ 2) (vdiv f smooth))).

(** The loop [for i in range(10, 100)]. *)
Definition candidate_masks : list (list bool) :=
  map (aperture npix order) (seq 10 90).

Definition scatters : list R :=
  map estimate_scatter_with_mask candidate_masks.

(** [pix_mask = masks[np.argmin(scatters)]] *)
Definition pix_mask : option (list bool) :=
  match np_argmin scatters with
  | Some k => nth_error candidate_masks k
  | None => None
  end.
End Aperture.

(** ** tess.ipynb: the phase-binned light curve *)

(** Bin [i] of [np.histogram(a, bins)] is [[bins[i], bins[i+1])]; the last
    bin also holds its right edge.  Values outside every bin are dropped. *)
Definition in_bin (bins : list R) (i : nat) (v : R) : bool :=
  Rleb (nth i bins 0) v
  && (if Nat.eqb (S (S i)) (List.length bins)
      then Rleb v (nth (S i) bins 0)
      else Rltb v (nth (S i) bins 0)).

(** [np.histogram(a, bins)[0]]: the number of values of each bin. *)
Definition histogram_count (a bins : list R) : list nat :=
  map (fun i => List.length (filter (in_bin bins i) a))
      (seq 0 (List.length bins - 1)).

(** [np.histogram(a, bins, weights=w)[0]]: the sum of the weights of the
    values of each bin. *)
Definition histogram_sum (a bins w : list R) : list R :=
  map (fun i =>
         np_sum (map snd (filter (fun vw : R * R => in_bin bins i (fst vw))
                                 (combine a w))))
      (seq 0 (List.length bins - 1)).

(** [denom[num == 0] = 1.0] *)
Fixpoint guard_denom (num : list R) (denom : list nat) : list nat :=
  match num, denom with
  | n :: num', d :: denom' =>
      (if Req_dec_T n 0 then 1%nat else d) :: guard_denom num' denom'
  | _, _ => []
  end.

(** The binned curve that is plotted:
<<
    denom, _ = np.histogram(x_fold, bins)
    num, _ = np.histogram(x_fold, bins, weights=flux)
    denom[num == 0] = 1.0
    ... num / denom
>> *)
Definition binned_curve (x_fold bins flux : list R) : list R :=
  let denom := histogram_count x_fold bins in
  let num := histogram_sum x_fold bins flux in
  let denom := guard_denom num denom in
  vdiv num (map INR denom).

(** ** tess.ipynb: the staged optimisation of [build_model] *)

Section TessStagedMAP.
Variable point : Type.

(** [model.test_point] of the model built for the mask at hand. *)
Variable test_point : point.

Variable optimize : point -> option (list string) -> point.

Local Open Scope string_scope.

(** The end of [build_model(mask=None, start=None)]:
<<
    if start is None:
        start = model.test_point
    map_soln = xo.optimize(start=start, vars=[logs2, logSw4, logw0])
    ...
    map_soln = xo.optimize(start=map_soln)
>> *)
Definition tess_optimize (start : option point) : point :=
  let start := match start with
               | None => test_point
               | Some s => s
               end in
  let map_soln := optimize start (Some ["logs2"; "logSw4"; "logw0"]) in
  let map_soln := optimize map_soln (Some ["logr"]) in
  let map_soln := optimize map_soln (Some ["b"]) in
  let map_soln := optimize map_soln (Some ["logP"; "t0"]) in
  let map_soln := optimize map_soln (Some ["u_star"]) in
  let map_soln := optimize map_soln (Some ["logr"]) in
  let map_soln := optimize map_soln (Some ["b"]) in
  let map_soln := optimize map_soln (Some ["ecc"; "omega"]) in
  let map_soln := optimize map_soln (Some ["mean"]) in
  let map_soln := optimize map_soln (Some ["logs2"; "logSw4"; "logw0"]) in
  optimize map_soln None.
End TessStagedMAP.

(** ** quick-tess.ipynb: exposure time and density re-weighting *)

(** [np.diff(a)] *)
Fixpoint np_diff (a : list R) : list R :=
  match a with
  | u :: (v :: _) as a' => (v - u) :: np_diff a'
  | _ => []
  end.

(** [texp = np.min(np.diff(x))]; [np.min] raises on an empty array. *)
Definition texp (x : list R) : option R := np_min (np_diff x).



(** * Properties *)

(** ** Arrays and masks *)

Lemma select_map (A B : Type) (f : A -> B) (mask : list bool) (a : list A) :
  select mask (map f a) = map f (select mask a).
Proof.
  revert a; induction mask as [|m mask IH]; intros [|v a]; simpl; auto.
  destruct m; simpl; now rewrite IH.
Qed.

Lemma select_ones (A : Type) (a : list A) :
  select (ones (List.length a)) a = a.
Proof.
  induction a as [|v a IH]; simpl; auto. now f_equal.
Qed.

Lemma select_length (A : Type) (mask : list bool) (a : list A) :
  List.length mask = List.length a ->
  List.length (select mask a) = count_true mask.
Proof.
  unfold count_true.
  revert a; induction mask as [|m mask IH]; intros [|v a] H; simpl in *;
    try discriminate; auto.
  destruct m; simpl; rewrite IH by lia; auto.
Qed.

Lemma select_sublist (A : Type) (mask : list bool) (a : list A) :
  sublist (select mask a) a.
Proof.
  revert mask; induction a as [|v a IH]; intros [|m mask]; simpl.
  - constructor.
  - constructor.
  - apply sublist_drop. specialize (IH []). now destruct a.
  - destruct m; constructor; apply IH.
Qed.

Lemma count_true_ones (n : nat) : count_true (ones n) = n.
Proof.
  unfold count_true, ones.
  induction n as [|n IH]; simpl; auto.
Qed.

Lemma count_true_le (mask : list bool) :
  (count_true mask <= List.length mask)%nat.
Proof.
  unfold count_true. apply filter_length_le.
Qed.

Lemma assign_masked_length (mask new : list bool) :
  List.length (assign_masked mask new) = List.length mask.
Proof.
  revert new; induction mask as [|m mask IH]; intros new; simpl; auto.
  destruct m; [destruct new|]; simpl; now rewrite IH.
Qed.

Lemma assign_masked_subset (mask new : list bool) :
  mask_subset (assign_masked mask new) mask.
Proof.
  split; [apply assign_masked_length|].
  revert new; induction mask as [|m mask IH]; intros new i; simpl.
  - now destruct i.
  - destruct m.
    + destruct new as [|b new]; destruct i; simpl; auto; apply IH.
    + destruct i; simpl; [auto | apply IH].
Qed.

Lemma assign_masked_all_true (mask new : list bool) :
  forallb (fun b => b) new = true -> assign_masked mask new = mask.
Proof.
  revert new; induction mask as [|m mask IH]; intros new H; simpl; auto.
  destruct m.
  - destruct new as [|b new]; simpl in *.
    + now rewrite IH.
    + apply andb_true_iff in H as [-> H]. now rewrite IH.
  - now rewrite IH.
Qed.

Lemma assign_masked_count_le (mask new : list bool) :
  (count_true (assign_masked mask new) <= count_true mask)%nat.
Proof.
  unfold count_true.
  revert new; induction mask as [|m mask IH]; intros new; simpl; auto.
  destruct m.
  - destruct new as [|b new]; simpl.
    + specialize (IH []). lia.
    + specialize (IH new). destruct b; simpl; lia.
  - apply IH.
Qed.

(** When an assignment of the right length keeps the count, it wrote
    [True] everywhere. *)
Lemma assign_masked_same_count (mask new : list bool) :
  List.length new = count_true mask ->
  count_true (assign_masked mask new) = count_true mask ->
  forallb (fun b => b) new = true.
Proof.
  revert new; induction mask as [|m mask IH]; intros new Hlen Hcnt.
  - destruct new; [reflexivity | discriminate].
  - destruct m.
    + destruct new as [|b new]; [discriminate|].
      assert (Hle := assign_masked_count_le mask new).
      unfold count_true in *. simpl in *.
      destruct b; simpl in *.
      * apply IH; lia.
      * lia.
    + apply IH; auto.
Qed.

(** ** The rational mirror agrees with the real-number model *)

Lemma sort_map (A B : Type) (f : A -> B)
      (lebA : A -> A -> bool) (lebB : B -> B -> bool) :
  (forall a b, lebB (f a) (f b) = lebA a b) ->
  forall l, sort lebB (map f l) = map f (sort lebA l).
Proof.
  intros Hleb.
  assert (Hins : forall v l, insert lebB (f v) (map f l)
                             = map f (insert lebA v l)).
  { intros v l; induction l as [|h t IH]; simpl; auto.
    rewrite Hleb. destruct (lebA v h); simpl; auto. now rewrite IH. }
  induction l as [|h t IH]; simpl; auto.
  now rewrite IH, Hins.
Qed.

Lemma insert_length (A : Type) (leb : A -> A -> bool) (v : A) (l : list A) :
  List.length (insert leb v l) = S (List.length l).
Proof.
  induction l as [|h t IH]; simpl; auto.
  destruct (leb v h); simpl; auto.
Qed.

Lemma sort_length (A : Type) (leb : A -> A -> bool) (l : list A) :
  List.length (sort leb l) = List.length l.
Proof.
  induction l as [|h t IH]; simpl; auto.
  now rewrite insert_length, IH.
Qed.

Lemma Rleb_Q2R (a b : Q) : Rleb (Q2R a) (Q2R b) = Qle_bool a b.
Proof.
  unfold Rleb. destruct (Rle_dec (Q2R a) (Q2R b)) as [H|H].
  - symmetry. apply Qle_bool_iff. now apply Rle_Qle.
  - destruct (Qle_bool a b) eqn:E; auto.
    apply Qle_bool_iff in E. apply Qle_Rle in E. contradiction.
Qed.

Lemma Rltb_Q2R (a b : Q) : Rltb (Q2R a) (Q2R b) = QExec.Qltb a b.
Proof.
  unfold Rltb, QExec.Qltb. destruct (Rlt_dec (Q2R a) (Q2R b)) as [H|H].
  - destruct (Qle_bool b a) eqn:E; auto.
    apply Qle_bool_iff in E. apply Qle_Rle in E. lra.
  - destruct (Qle_bool b a) eqn:E; auto. exfalso. apply H.
    apply Qlt_Rlt. apply Qnot_le_lt. intros Hle.
    apply Qle_bool_iff in Hle. congruence.
Qed.

Lemma Q2R_zero : Q2R 0 = 0.
Proof. unfold Q2R; simpl; lra. Qed.

Lemma Q2R_nth (i : nat) (l : list Q) :
  nth i (map Q2R l) 0 = Q2R (nth i l 0%Q).
Proof. rewrite <- Q2R_zero. apply map_nth. Qed.

Lemma median_Q2R (l : list Q) : median (map Q2R l) = Q2R (QExec.median l).
Proof.
  unfold median, QExec.median.
  rewrite (sort_map _ _ Q2R Qle_bool Rleb Rleb_Q2R).
  rewrite length_map.
  destruct (Nat.even (List.length (sort Qle_bool l))).
  - rewrite !Q2R_nth, Q2R_div by discriminate.
    rewrite Q2R_plus. f_equal. unfold Q2R; simpl; lra.
  - apply Q2R_nth.
Qed.

Lemma vsub_Q2R (a b : list Q) :
  vsub (map Q2R a) (map Q2R b) = map Q2R (QExec.vsub a b).
Proof.
  revert b; induction a as [|u a IH]; intros [|v b]; simpl; auto.
  now rewrite IH, Q2R_minus.
Qed.

(** The threshold test on the squares. *)
Lemma within_sqrt (k d v : R) :
  0 <= k -> (Rabs d < k * sqrt v <-> 0 < v /\ d * d < k * k * v).
Proof.
  intros Hk. destruct (Rle_lt_dec v 0) as [Hv|Hv].
  - rewrite (sqrt_neg_0 v Hv), Rmult_0_r.
    split; [intros H | intros [H _]; lra].
    assert (0 <= Rabs d) by apply Rabs_pos. lra.
  - assert (Hs : 0 < sqrt v) by now apply sqrt_lt_R0.
    assert (Hy : 0 <= k * sqrt v) by (apply Rmult_le_pos; lra).
    assert (Hsq : Rsqr (k * sqrt v) = k * k * v).
    { unfold Rsqr.
      replace (k * sqrt v * (k * sqrt v)) with (k * k * (sqrt v * sqrt v))
        by ring.
      rewrite sqrt_sqrt by lra. reflexivity. }
    split.
    + intros H. split; auto.
      rewrite <- Hsq. change (d * d) with (Rsqr d).
      apply Rsqr_lt_abs_1. now rewrite (Rabs_pos_eq _ Hy).
    + intros [_ H].
      rewrite <- (Rabs_pos_eq _ Hy). apply Rsqr_lt_abs_0.
      rewrite Hsq. exact H.
Qed.

Lemma within_Q2R (k : R) (k2 d v : Q) :
  0 <= k -> Q2R k2 = k * k ->
  Rltb (Rabs (Q2R d)) (k * sqrt (Q2R v)) = QExec.within k2 d v.
Proof.
  intros Hk Hk2. unfold QExec.within.
  rewrite <- !Rltb_Q2R, Q2R_zero, !Q2R_mult, Hk2.
  unfold Rltb at 1.
  destruct (Rlt_dec (Rabs (Q2R d)) (k * sqrt (Q2R v))) as [H|H].
  - apply (within_sqrt _ _ _ Hk) in H as [H1 H2].
    unfold Rltb.
    destruct (Rlt_dec 0 (Q2R v)); [|contradiction].
    destruct (Rlt_dec (Q2R d * Q2R d) (k * k * Q2R v)); [|contradiction].
    reflexivity.
  - unfold Rltb.
    destruct (Rlt_dec 0 (Q2R v)) as [H1|H1]; auto.
    destruct (Rlt_dec (Q2R d * Q2R d) (k * k * Q2R v)) as [H2|H2]; auto.
    exfalso. apply H. apply (within_sqrt _ _ _ Hk). auto.
Qed.

Lemma robust_sigma_Q2R (resid : list Q) :
  robust_sigma (map Q2R resid) = sqrt (Q2R (QExec.robust_var resid)).
Proof.
  unfold robust_sigma, QExec.robust_var.
  rewrite median_Q2R, map_map.
  replace (map (fun r => (Q2R r - Q2R (QExec.median resid)) ^ 2) resid)
    with (map Q2R
            (map (fun r => ((r - QExec.median resid)
                            * (r - QExec.median resid))%Q) resid)).
  2:{ rewrite map_map. apply map_ext. intros r.
      rewrite Q2R_mult, Q2R_minus. ring. }
  now rewrite median_Q2R.
Qed.

Lemma tess_rms_Q2R (resid : list Q) :
  tess_rms (map Q2R resid) = sqrt (Q2R (QExec.tess_var resid)).
Proof.
  unfold tess_rms, QExec.tess_var.
  rewrite map_map.
  replace (map (fun r => Q2R r ^ 2) resid)
    with (map Q2R (map (fun r => (r * r)%Q) resid)).
  2:{ rewrite map_map. apply map_ext. intros r. rewrite Q2R_mult. ring. }
  now rewrite median_Q2R.
Qed.

Lemma clip_mask_Q2R (resid : list Q) :
  clip_mask (map Q2R resid) = QExec.clip_mask resid.
Proof.
  unfold clip_mask, QExec.clip_mask.
  rewrite robust_sigma_Q2R, median_Q2R, map_map.
  apply map_ext. intros r.
  rewrite <- Q2R_minus. apply within_Q2R; [lra|].
  unfold Q2R; simpl; lra.
Qed.

Lemma tess_mask_Q2R (resid : list Q) :
  tess_mask (map Q2R resid) = QExec.tess_mask resid.
Proof.
  unfold tess_mask, QExec.tess_mask.
  rewrite tess_rms_Q2R, map_map.
  apply map_ext. intros r.
  apply within_Q2R; [lra|]. unfold Q2R; simpl; lra.
Qed.

Section EBTransfer.
Variables x y : list Q.
Variable fitQ : list Q -> list Q -> Q -> Q.
Variable fitR : list R -> list R -> R -> R.
Hypothesis fit_compat : forall xs ys t,
    fitR (map Q2R xs) (map Q2R ys) (Q2R t) = Q2R (fitQ xs ys t).

Lemma residuals_Q2R (mask : list bool) :
  residuals (map Q2R x) (map Q2R y) fitR mask
  = map Q2R (QExec.residuals x y fitQ mask).
Proof.
  unfold residuals, build_model, QExec.residuals.
  rewrite !select_map, map_map.
  rewrite <- vsub_Q2R. f_equal.
  rewrite map_map. apply map_ext. intros t. apply fit_compat.
Qed.

Lemma clip_pass_Q2R (mask : list bool) :
  clip_pass (map Q2R x) (map Q2R y) fitR mask
  = QExec.clip_pass x y fitQ mask.
Proof.
  unfold clip_pass, QExec.clip_pass.
  now rewrite residuals_Q2R, clip_mask_Q2R.
Qed.

Lemma sigma_clip_loop_Q2R (n : nat) :
  forall mask num fits model,
    sigma_clip_loop (map Q2R x) (map Q2R y) fitR n mask num fits model
    = QExec.sigma_clip_loop x y fitQ n mask num fits model.
Proof.
  induction n as [|n IH]; intros mask num fits model; simpl; auto.
  rewrite clip_pass_Q2R.
  destruct (Nat.eqb num (count_true (QExec.clip_pass x y fitQ mask)));
    auto.
Qed.

Lemma sigma_clip_Q2R :
  sigma_clip (map Q2R x) (map Q2R y) fitR = QExec.sigma_clip x y fitQ.
Proof.
  unfold sigma_clip, QExec.sigma_clip.
  rewrite length_map. apply sigma_clip_loop_Q2R.
Qed.
End EBTransfer.

Section MultiTransfer.
Variable fitQ : QExec.qdatasets -> string -> Q -> Q.
Variable fitR : datasets -> string -> R -> R.
Hypothesis fit_compat : forall ds name t,
    fitR (QExec.to_Rs ds) name (Q2R t) = Q2R (fitQ ds name t).

Lemma multi_mask_Q2R (ds : QExec.qdatasets) (name : string)
      (d : QExec.qdataset) :
  multi_mask fitR (QExec.to_Rs ds) name (QExec.to_R d)
  = QExec.multi_mask fitQ ds name d.
Proof.
  unfold multi_mask, QExec.multi_mask. simpl.
  rewrite <- clip_mask_Q2R, <- vsub_Q2R. do 2 f_equal.
  rewrite !map_map. apply map_ext. intros t. apply fit_compat.
Qed.

Lemma multi_masks_Q2R (ds : QExec.qdatasets) :
  multi_masks fitR (QExec.to_Rs ds) = QExec.multi_masks fitQ ds.
Proof.
  unfold multi_masks, QExec.multi_masks, QExec.to_Rs at 2.
  rewrite map_map. apply map_ext. intros [name d]. simpl.
  now rewrite multi_mask_Q2R.
Qed.

Lemma multi_clipped_Q2R (ds : QExec.qdatasets) :
  multi_clipped fitR (QExec.to_Rs ds) = QExec.multi_clipped fitQ ds.
Proof.
  unfold multi_clipped, QExec.multi_clipped, QExec.to_Rs at 2.
  rewrite map_map. apply map_ext. intros [name d]. simpl.
  now rewrite multi_mask_Q2R, length_map.
Qed.

Lemma truncate_Q2R (ds : QExec.qdatasets) :
  truncate fitR (QExec.to_Rs ds) = QExec.to_Rs (QExec.truncate fitQ ds).
Proof.
  unfold truncate, QExec.truncate.
  set (D := QExec.to_Rs ds) at 1.
  set (f := fun nd : string * dataset => _).
  set (g := fun nd : string * QExec.qdataset => _).
  assert (Hfg : forall nd, f (fst nd, QExec.to_R (snd nd))
                           = (fst (g nd), QExec.to_R (snd (g nd)))).
  { intros [name d]. unfold f, g, D. simpl.
    rewrite multi_mask_Q2R. unfold QExec.to_R. simpl.
    now rewrite !select_map. }
  unfold QExec.to_Rs. rewrite !map_map. apply map_ext. exact Hfg.
Qed.

Lemma multi_loop_Q2R (n : nat) :
  forall ds fits masks,
    multi_loop fitR n (QExec.to_Rs ds) fits masks
    = QExec.result_to_R (QExec.multi_loop fitQ n ds fits masks).
Proof.
  induction n as [|n IH]; intros ds fits masks; simpl; auto.
  rewrite multi_clipped_Q2R, multi_masks_Q2R.
  destruct (all_below_10 (QExec.multi_clipped fitQ ds)); auto.
  rewrite truncate_Q2R. apply IH.
Qed.

Lemma multi_sigma_clip_Q2R (ds : QExec.qdatasets) :
  multi_sigma_clip fitR (QExec.to_Rs ds)
  = QExec.result_to_R (QExec.multi_sigma_clip fitQ ds).
Proof. apply multi_loop_Q2R. Qed.
End MultiTransfer.

(** ** The clipping loops: number of passes *)

Lemma sigma_clip_loop_passes (x y : list R) (fit : list R -> list R -> R -> R)
      (n : nat) :
  forall mask num fits model,
    (fits <= passes (sigma_clip_loop x y fit n mask num fits model)
     <= fits + n)%nat.
Proof.
  induction n as [|n IH]; intros mask num fits model; simpl.
  - lia.
  - destruct (Nat.eqb num (count_true (clip_pass x y fit mask))); simpl.
    + lia.
    + specialize (IH (clip_pass x y fit mask)
                     (count_true (clip_pass x y fit mask)) (S fits) mask).
      lia.
Qed.

Lemma multi_loop_passes (fit : datasets -> string -> R -> R) (n : nat) :
  forall ds fits masks,
    (fits <= multi_passes (multi_loop fit n ds fits masks) <= fits + n)%nat.
Proof.
  induction n as [|n IH]; intros ds fits masks; simpl.
  - lia.
  - destruct (all_below_10 (multi_clipped fit ds)); simpl.
    + lia.
    + specialize (IH (truncate fit ds) (S fits) (multi_masks fit ds)). lia.
Qed.

Lemma sigma_clip_loop_first_pass (x y : list R)
      (fit : list R -> list R -> R -> R) (n : nat) :
  forall mask num fits model,
    (S fits <= passes (sigma_clip_loop x y fit (S n) mask num fits model))%nat.
Proof.
  intros mask num fits model. simpl.
  destruct (Nat.eqb num (count_true (clip_pass x y fit mask))); simpl; auto.
  apply sigma_clip_loop_passes.
Qed.

Lemma multi_loop_first_pass (fit : datasets -> string -> R -> R) (n : nat) :
  forall ds fits masks,
    (S fits <= multi_passes (multi_loop fit (S n) ds fits masks))%nat.
Proof.
  intros ds fits masks. simpl.
  destruct (all_below_10 (multi_clipped fit ds)); simpl; auto.
  apply multi_loop_passes.
Qed.

(** C1: for every dataset and every behaviour of the fitted model, each
    clipping loop returns after at least one and at most 10 passes: the
    number of model fits performed by [sigma_clip] (eb.ipynb) and by the
    multi-instrument loop never exceeds 10. *)
Theorem clipping_loops_at_most_10_passes :
  (forall (x y : list R) (fit : list R -> list R -> R -> R),
      (1 <= passes (sigma_clip x y fit) <= 10)%nat)
  /\ (forall (fit : datasets -> string -> R -> R) (ds : datasets),
         (1 <= multi_passes (multi_sigma_clip fit ds) <= 10)%nat).
Proof.
  split.
  - intros x y fit. unfold sigma_clip. split.
    + apply sigma_clip_loop_first_pass.
    + apply (sigma_clip_loop_passes x y fit 10).
  - intros fit ds. unfold multi_sigma_clip. split.
    + apply multi_loop_first_pass.
    + apply (multi_loop_passes fit 10).
Qed.

(** ** The clipping loops only narrow *)

Lemma mask_subset_refl (m : list bool) : mask_subset m m.
Proof. split; auto. Qed.

Lemma mask_subset_trans (m1 m2 m3 : list bool) :
  mask_subset m1 m2 -> mask_subset m2 m3 -> mask_subset m1 m3.
Proof.
  intros [L1 H1] [L2 H2]. split; [congruence | auto].
Qed.

Lemma clip_pass_subset (x y : list R) (fit : list R -> list R -> R -> R)
      (mask : list bool) :
  mask_subset (clip_pass x y fit mask) mask.
Proof. apply assign_masked_subset. Qed.

Lemma sigma_clip_loop_subset (x y : list R)
      (fit : list R -> list R -> R -> R) (n : nat) :
  forall mask num fits model,
    mask_subset (final_mask (sigma_clip_loop x y fit n mask num fits model))
                mask.
Proof.
  induction n as [|n IH]; intros mask num fits model; simpl.
  - apply mask_subset_refl.
  - destruct (Nat.eqb num (count_true (clip_pass x y fit mask))); simpl.
    + apply clip_pass_subset.
    + eapply mask_subset_trans; [apply IH | apply clip_pass_subset].
Qed.

Lemma sublist_refl (A : Type) (a : list A) : sublist a a.
Proof. induction a; constructor; auto. Qed.

Lemma sublist_trans (A : Type) (a b c : list A) :
  sublist a b -> sublist b c -> sublist a c.
Proof.
  intros Hab Hbc. revert a Hab.
  induction Hbc as [|v b c Hbc IH|v b c Hbc IH]; intros a Hab.
  - exact Hab.
  - inversion Hab; subst.
    + apply sublist_keep. now apply IH.
    + apply sublist_drop. now apply IH.
  - apply sublist_drop. now apply IH.
Qed.

Lemma narrowed_refl (ds : datasets) : Forall2 narrowed ds ds.
Proof.
  induction ds as [|nd ds IH]; constructor; auto.
  repeat split; apply sublist_refl.
Qed.

Lemma narrowed_trans (a b c : datasets) :
  Forall2 narrowed a b -> Forall2 narrowed b c -> Forall2 narrowed a c.
Proof.
  intros Hab. revert c.
  induction Hab as [|u v a b Huv Hab IH]; intros c Hbc;
    inversion Hbc; subst; constructor.
  - destruct Huv as (N1 & E1 & T1 & Y1 & R1).
    match goal with H : narrowed v _ |- _ =>
      destruct H as (N2 & E2 & T2 & Y2 & R2) end.
    repeat split; try congruence; eapply sublist_trans; eauto.
  - now apply IH.
Qed.

Lemma truncate_narrowed (fit : datasets -> string -> R -> R) (ds : datasets) :
  Forall2 narrowed (truncate fit ds) ds.
Proof.
  unfold truncate.
  generalize (multi_mask fit ds) as mk. intros mk.
  induction ds as [|[name d] ds IH]; simpl; constructor; auto.
  repeat split; simpl; apply select_sublist.
Qed.

Lemma multi_loop_narrowed (fit : datasets -> string -> R -> R) (n : nat) :
  forall ds fits masks,
    Forall2 narrowed (final_data (multi_loop fit n ds fits masks)) ds.
Proof.
  induction n as [|n IH]; intros ds fits masks; simpl.
  - apply narrowed_refl.
  - destruct (all_below_10 (multi_clipped fit ds)); simpl.
    + apply narrowed_refl.
    + eapply narrowed_trans; [apply IH | apply truncate_narrowed].
Qed.

(** C2: in both variants a pass only narrows.  eb.ipynb: the mask after
    [mask[mask] = ...] is a subset of the mask before, and so is the mask
    [sigma_clip] ends with, of every mask it started a pass from.
    Multi-instrument loop: the arrays after a truncation are sub-arrays of
    the arrays before, and so are the arrays the loop ends with.  A point
    that was removed is never back. *)
Theorem clipping_never_readmits :
  (forall (x y : list R) (fit : list R -> list R -> R -> R),
      (forall mask, mask_subset (clip_pass x y fit mask) mask)
      /\ (forall n mask num fits model,
             mask_subset
               (final_mask (sigma_clip_loop x y fit n mask num fits model))
               mask)
      /\ mask_subset (final_mask (sigma_clip x y fit))
                     (ones (List.length x)))
  /\ (forall (fit : datasets -> string -> R -> R),
         (forall ds, Forall2 narrowed (truncate fit ds) ds)
         /\ (forall n ds fits masks,
                Forall2 narrowed
                        (final_data (multi_loop fit n ds fits masks)) ds)
         /\ (forall ds,
                Forall2 narrowed (final_data (multi_sigma_clip fit ds)) ds)).
Proof.
  split.
  - intros x y fit. repeat split.
    + apply assign_masked_length.
    + apply clip_pass_subset.
    + apply sigma_clip_loop_subset.
    + apply sigma_clip_loop_subset.
    + apply sigma_clip_loop_subset.
    + apply sigma_clip_loop_subset.
  - intros fit. repeat split.
    + apply truncate_narrowed.
    + apply multi_loop_narrowed.
    + intros ds. apply multi_loop_narrowed.
Qed.

(** ** The clipping rule of each variant *)

Lemma Rltb_true_iff (a b : R) : Rltb a b = true <-> a < b.
Proof.
  unfold Rltb. destruct (Rlt_dec a b); split; auto; discriminate.
Qed.

Lemma Forall2_map_self (A B : Type) (P : B -> A -> Prop) (f : A -> B)
      (l : list A) :
  (forall a, P (f a) a) -> Forall2 P (map f l) l.
Proof.
  intros H. induction l; simpl; constructor; auto.
Qed.

Lemma Forall2_at (A B : Type) (P : A -> B -> Prop) (l1 : list A)
      (l2 : list B) (i : nat) (d1 : A) (d2 : B) :
  Forall2 P l1 l2 -> (i < List.length l1)%nat ->
  P (nth i l1 d1) (nth i l2 d2).
Proof.
  intros H. revert i. induction H as [|a b l1 l2 Hab H IH]; intros i Hi.
  - simpl in Hi. lia.
  - destruct i; simpl in *; auto. apply IH. lia.
Qed.

Lemma clip_mask_rule (resid : list R) :
  Forall2 (fun b r => b = true <-> spec_keeps 7 resid r)
          (clip_mask resid) resid.
Proof.
  unfold clip_mask. apply Forall2_map_self. intros r.
  apply Rltb_true_iff.
Qed.

Lemma tess_mask_rule (resid : list R) :
  Forall2 (fun b r => b = true <-> tess_keeps resid r)
          (tess_mask resid) resid.
Proof.
  unfold tess_mask. apply Forall2_map_self. intros r.
  apply Rltb_true_iff.
Qed.

(** C3, as stated, fails for the cell of tess.ipynb: on residuals that sit
    around 11 it keeps the point at 20, which the centred rule rejects for
    every multiplier between 5 and 7. *)
Lemma tess_mask_is_not_centred : ~ follows_spec_rule tess_mask.
Proof.
  intros [k [Hk H]].
  specialize (H (map Q2R offset_residuals)).
  apply (Forall2_at _ _ _ _ _ 7%nat false 0) in H.
  2:{ unfold tess_mask. rewrite !length_map. simpl. lia. }
  rewrite tess_mask_Q2R in H.
  assert (E : QExec.tess_mask offset_residuals = repeat true 8)
    by (vm_compute; reflexivity).
  rewrite E in H. destruct H as [H _]. specialize (H eq_refl).
  unfold spec_keeps in H.
  set (resid := map Q2R offset_residuals) in *.
  change (sqrt (median (map (fun r' => (r' - median resid) ^ 2) resid)))
    with (robust_sigma resid) in H.
  subst resid.
  rewrite robust_sigma_Q2R, median_Q2R in H.
  assert (Em : Q2R (QExec.median offset_residuals) = 11).
  { replace 11 with (Q2R 11) by (unfold Q2R; simpl; lra).
    apply Qeq_eqR. vm_compute. reflexivity. }
  assert (Ev : Q2R (QExec.robust_var offset_residuals) = 1).
  { replace 1 with (Q2R 1) by (unfold Q2R; simpl; lra).
    apply Qeq_eqR. vm_compute. reflexivity. }
  rewrite Em, Ev, sqrt_1 in H.
  assert (E20 : nth 7 (map Q2R offset_residuals) 0 = 20)
    by (simpl; unfold Q2R; simpl; lra).
  rewrite E20 in H.
  rewrite Rabs_pos_eq in H by lra. lra.
Qed.

(** C3, amended: the loops of eb.ipynb and of the multi-instrument notebook
    keep a residual exactly when [|r - median| < 7 * sqrt(median((r -
    median)^2))], a strict test on residuals centred on their median; the
    cell of tess.ipynb does not centre: it keeps a residual exactly when
    [|r| < 5 * sqrt(median(r^2))]. *)
Theorem clip_rule_of_each_variant :
  follows_spec_rule clip_mask
  /\ (forall (x y : list R) (fit : list R -> list R -> R -> R) mask,
         Forall2 (fun b r => b = true
                             <-> spec_keeps 7 (residuals x y fit mask) r)
                 (clip_mask (residuals x y fit mask))
                 (residuals x y fit mask)
         /\ clip_pass x y fit mask
            = assign_masked mask (clip_mask (residuals x y fit mask)))
  /\ (forall (fit : datasets -> string -> R -> R) ds name d,
         let resid := vsub (ds_y d) (map (fit ds name) (ds_t d)) in
         Forall2 (fun b r => b = true <-> spec_keeps 7 resid r)
                 (multi_mask fit ds name d) resid)
  /\ (forall resid,
         Forall2 (fun b r => b = true <-> tess_keeps resid r)
                 (tess_mask resid) resid).
Proof.
  split; [|split; [|split]].
  - exists 7. split; [lra|]. apply clip_mask_rule.
  - intros x y fit mask. split; [apply clip_mask_rule | reflexivity].
  - intros fit ds name d resid. apply clip_mask_rule.
  - apply tess_mask_rule.
Qed.

(** ** Staged optimisation *)

Section StagedMAPProps.
Variable point : Type.
Variable logp : point -> R.
Variable optimize : point -> option (list string) -> point.

(** What is assumed of the external optimiser: a call never returns a
    point with a lower log-posterior than the one it started from. *)
Hypothesis optimize_improves :
  forall start vars, logp start <= logp (optimize start vars).

Lemma fold_stages_improve (A : Type) (stage : point -> A -> point) :
  (forall s a, logp s <= logp (stage s a)) ->
  forall (l : list A) (s : point), logp s <= logp (fold_left stage l s).
Proof.
  intros Hstage l. induction l as [|a l IH]; intros s; simpl.
  - lra.
  - eapply Rle_trans; [apply (Hstage s a) | apply IH].
Qed.

Lemma two_calls_improve (s : point) (v1 v2 : option (list string)) :
  logp s <= logp (optimize (optimize s v1) v2).
Proof.
  eapply Rle_trans; [apply (optimize_improves s v1)|].
  apply optimize_improves.
Qed.

(** C4: when no single call of [xo.optimize] lowers the log-posterior,
    the staged sequences of eb.ipynb, ttv.ipynb and the multi-instrument
    notebook return a point whose log-posterior is at least that of the
    point they start from. *)
Theorem staged_optimization_does_not_decrease (start : point) :
  logp start <= logp (eb_optimize point optimize start)
  /\ logp start <= logp (ttv_optimize point optimize start)
  /\ forall names,
      logp start <= logp (multi_optimize point optimize names start).
Proof.
  split; [|split].
  - unfold eb_optimize.
    repeat (eapply Rle_trans; [|apply optimize_improves]). lra.
  - unfold ttv_optimize.
    repeat (eapply Rle_trans; [|apply optimize_improves]). lra.
  - intros names. unfold multi_optimize.
    eapply Rle_trans; [|apply optimize_improves].
    eapply Rle_trans; [|apply fold_stages_improve].
    + apply fold_stages_improve. intros s a. apply optimize_improves.
    + intros s a. apply two_calls_improve.
Qed.
End StagedMAPProps.

Lemma staged_optimization_witness :
  (forall start vars, toy_logp start <= toy_logp (toy_optimize start vars))
  /\ toy_logp 8 <= toy_logp (eb_optimize R toy_optimize 8)
  /\ toy_logp 8 <= toy_logp (ttv_optimize R toy_optimize 8)
  /\ forall names,
      toy_logp 8 <= toy_logp (multi_optimize R toy_optimize names 8).
Proof.
  assert (H : forall start vars,
             toy_logp start <= toy_logp (toy_optimize start vars)).
  { intros start vars. unfold toy_logp, toy_optimize. nra. }
  split; [exact H|].
  apply (staged_optimization_does_not_decrease R toy_logp toy_optimize H 8).
Defined.

(** ** A first pass without outliers *)

Lemma length_ones (n : nat) : List.length (ones n) = n.
Proof. apply repeat_length. Qed.

Lemma count_true_all_true (mask : list bool) :
  all_true mask = true -> count_true mask = List.length mask.
Proof.
  unfold all_true, count_true.
  induction mask as [|b mask IH]; simpl; auto.
  intros H. apply andb_true_iff in H as [-> H]. simpl. now rewrite IH.
Qed.

Lemma vsub_length (a b : list R) :
  List.length (vsub a b) = Nat.min (List.length a) (List.length b).
Proof.
  revert b; induction a as [|u a IH]; intros [|v b]; simpl; auto.
Qed.

Lemma clip_mask_length (resid : list R) :
  List.length (clip_mask resid) = List.length resid.
Proof. unfold clip_mask. apply length_map. Qed.

Lemma sigma_clip_loop_no_outlier (x y : list R)
      (fit : list R -> list R -> R -> R) (n : nat) (mask : list bool)
      (num fits : nat) (model : list bool) :
  all_true (clip_mask (residuals x y fit mask)) = true ->
  num = count_true mask ->
  sigma_clip_loop x y fit (S n) mask num fits model
  = {| final_mask := mask; model_mask := mask;
       passes := S fits; converged := true |}.
Proof.
  intros Hall Hnum. simpl. unfold clip_pass.
  rewrite (assign_masked_all_true mask _ Hall).
  subst num. now rewrite Nat.eqb_refl.
Qed.

Lemma multi_mask_length (fit : datasets -> string -> R -> R)
      (ds : datasets) (name : string) (d : dataset) :
  List.length (ds_y d) = List.length (ds_t d) ->
  List.length (multi_mask fit ds name d) = List.length (ds_t d).
Proof.
  intros H. unfold multi_mask.
  rewrite clip_mask_length, vsub_length, length_map. lia.
Qed.

Lemma multi_clipped_no_outlier (fit : datasets -> string -> R -> R)
      (ds : datasets) :
  well_formed ds ->
  Forall (fun nm : string * list bool => all_true (snd nm) = true)
         (multi_masks fit ds) ->
  all_below_10 (multi_clipped fit ds) = true.
Proof.
  unfold multi_clipped, multi_masks, all_below_10, well_formed.
  generalize ds at 1 3 5 as ds0.
  induction ds0 as [|[name d] ds0 IH]; intros Hwf Hall; simpl; auto.
  inversion Hwf as [|? ? [Hy _] Hwf']; subst.
  inversion Hall as [|? ? Ht Hall']; subst. simpl in *.
  rewrite (count_true_all_true _ Ht), (multi_mask_length _ _ _ _ Hy).
  rewrite Nat.sub_diag. simpl. now apply IH.
Qed.

(** C5: when the mask computed in the first pass keeps every point, each
    loop performs exactly one fit and leaves through [break]: [sigma_clip]
    returns the initial all-[True] mask, the multi-instrument loop returns
    the datasets it was given. *)
Theorem no_outlier_means_single_pass :
  (forall (x y : list R) (fit : list R -> list R -> R -> R),
      all_true (clip_mask (residuals x y fit (ones (List.length x)))) = true ->
      sigma_clip x y fit
      = {| final_mask := ones (List.length x);
           model_mask := ones (List.length x);
           passes := 1; converged := true |})
  /\ (forall (fit : datasets -> string -> R -> R) (ds : datasets),
         well_formed ds ->
         Forall (fun nm : string * list bool => all_true (snd nm) = true)
                (multi_masks fit ds) ->
         multi_sigma_clip fit ds
         = {| final_data := ds; last_masks := multi_masks fit ds;
              multi_passes := 1; multi_converged := true |}).
Proof.
  split.
  - intros x y fit Hall. unfold sigma_clip.
    apply sigma_clip_loop_no_outlier; auto.
    now rewrite length_ones, count_true_ones.
  - intros fit ds Hwf Hall. unfold multi_sigma_clip.
    change (multi_loop fit 10 ds 0 [])
      with (if all_below_10 (multi_clipped fit ds)
            then {| final_data := ds; last_masks := multi_masks fit ds;
                    multi_passes := 1; multi_converged := true |}
            else multi_loop fit 9 (truncate fit ds) 1 (multi_masks fit ds)).
    now rewrite multi_clipped_no_outlier.
Qed.

Lemma flat_fit_compat (xs ys : list Q) (t : Q) :
  flat_fit (map Q2R xs) (map Q2R ys) (Q2R t) = Q2R (flat_fitQ xs ys t).
Proof. unfold flat_fit, flat_fitQ. now rewrite Q2R_zero. Qed.

Lemma flat_multi_fit_compat (ds : QExec.qdatasets) (name : string) (t : Q) :
  flat_multi_fit (QExec.to_Rs ds) name (Q2R t)
  = Q2R (flat_multi_fitQ ds name t).
Proof. unfold flat_multi_fit, flat_multi_fitQ. now rewrite Q2R_zero. Qed.

Lemma well_formed_to_Rs (ds : QExec.qdatasets) :
  forallb (fun nd : string * QExec.qdataset =>
             Nat.eqb (List.length (QExec.q_y (snd nd)))
                     (List.length (QExec.q_t (snd nd)))
             && Nat.eqb (List.length (QExec.q_yerr (snd nd)))
                        (List.length (QExec.q_t (snd nd)))) ds = true ->
  well_formed (QExec.to_Rs ds).
Proof.
  unfold well_formed, QExec.to_Rs.
  induction ds as [|[name d] ds IH]; simpl; intros H; constructor.
  - apply andb_true_iff in H as [H _]. apply andb_true_iff in H as [H1 H2].
    apply Nat.eqb_eq in H1, H2. simpl. now rewrite !length_map.
  - apply IH. now apply andb_true_iff in H as [_ H].
Qed.

Lemma no_outlier_witness :
  sigma_clip (map Q2R quiet_x) (map Q2R quiet_y) flat_fit
  = {| final_mask := [true; true; true]; model_mask := [true; true; true];
       passes := 1; converged := true |}
  /\ multi_passes (multi_sigma_clip flat_multi_fit (QExec.to_Rs quiet_datasets))
     = 1%nat.
Proof.
  destruct no_outlier_means_single_pass as [Heb Hmulti]. split.
  - apply (Heb (map Q2R quiet_x) (map Q2R quiet_y) flat_fit).
    rewrite length_map.
    rewrite (residuals_Q2R quiet_x quiet_y flat_fitQ flat_fit flat_fit_compat).
    rewrite clip_mask_Q2R. vm_compute. reflexivity.
  - rewrite (Hmulti flat_multi_fit (QExec.to_Rs quiet_datasets)).
    + reflexivity.
    + apply well_formed_to_Rs. vm_compute. reflexivity.
    + rewrite (multi_masks_Q2R flat_multi_fitQ flat_multi_fit
                               flat_multi_fit_compat).
      vm_compute. repeat constructor.
Defined.

(** ** The driver script under [set -e] *)

Lemma exec_stops_at_failure (status : Shell.command -> nat)
      (l : nat) (c : Shell.command) (post : list Shell.step) :
  status c <> 0%nat ->
  forall (pre : list Shell.step) (sh : Shell.shell),
    Shell.errexit sh = true ->
    snd (Shell.exec status sh (pre ++ Shell.Simple l c :: post)) = false
    /\ forall c',
        In c' (Shell.ran
                 (fst (Shell.exec status sh
                                  (pre ++ Shell.Simple l c :: post)))) ->
        In c' (Shell.ran sh) \/ In c' (Shell.commands pre) \/ c' = c.
Proof.
  intros Hc. induction pre as [|s pre IH]; intros sh He.
  - simpl. apply Nat.eqb_neq in Hc. rewrite Hc, He. simpl.
    split; auto. intros c' [<-|H]; auto.
  - destruct s as [|l' c0|l' c0|l' c0]; simpl.
    + destruct (IH {| Shell.errexit := true; Shell.ran := Shell.ran sh;
                      Shell.last_status := 0 |} eq_refl) as [Hd Hr].
      split; auto.
    + destruct (Nat.eqb (status c0) 0).
      * destruct (IH {| Shell.errexit := Shell.errexit sh;
                        Shell.ran := c0 :: Shell.ran sh;
                        Shell.last_status := status c0 |} He) as [Hd Hr].
        split; auto. intros c' H.
        destruct (Hr c' H) as [[<-|H']|[H'|H']]; auto.
      * rewrite He. simpl. split; auto. intros c' [<-|H]; auto.
    + destruct (IH {| Shell.errexit := Shell.errexit sh;
                      Shell.ran := c0 :: Shell.ran sh;
                      Shell.last_status := 0 |} He) as [Hd Hr].
      split; auto. intros c' H.
      destruct (Hr c' H) as [[<-|H']|[H'|H']]; auto.
    + destruct (IH {| Shell.errexit := Shell.errexit sh;
                      Shell.ran := c0 :: Shell.ran sh;
                      Shell.last_status := Shell.last_status sh |} He)
        as [Hd Hr].
      split; auto. intros c' H.
      destruct (Hr c' H) as [[<-|H']|[H'|H']]; auto.
Qed.

(** The script has [set -e] on its first line: a split of the script at a
    simple command leaves [set -e] in the first part. *)
Lemma script_split_has_set_e (pre post : list Shell.step) (l : nat)
      (c : Shell.command) :
  Shell.script = pre ++ Shell.Simple l c :: post ->
  exists pre', pre = Shell.SetE :: pre'.
Proof.
  destruct pre as [|s pre]; simpl; intros H.
  - discriminate.
  - exists pre. now injection H as <- _.
Qed.

Lemma script_stops_at_failure (status : Shell.command -> nat)
      (pre post : list Shell.step) (l : nat) (c : Shell.command) :
  Shell.script = pre ++ Shell.Simple l c :: post ->
  status c <> 0%nat ->
  snd (Shell.run_notebooks_sh status) = false
  /\ forall c', In c' (Shell.ran (fst (Shell.run_notebooks_sh status))) ->
                In c' (Shell.commands pre) \/ c' = c.
Proof.
  intros Hsplit Hc.
  destruct (script_split_has_set_e _ _ _ _ Hsplit) as [pre' ->].
  unfold Shell.run_notebooks_sh. rewrite Hsplit.
  change (Shell.exec status Shell.start
            ((Shell.SetE :: pre') ++ Shell.Simple l c :: post))
    with (Shell.exec status
            {| Shell.errexit := true; Shell.ran := [];
               Shell.last_status := 0 |}
            (pre' ++ Shell.Simple l c :: post)).
  destruct (exec_stops_at_failure status l c post Hc pre'
              {| Shell.errexit := true; Shell.ran := [];
                 Shell.last_status := 0 |} eq_refl) as [Hd Hr].
  split; auto. intros c' H.
  destruct (Hr c' H) as [[]|[H'|H']]; auto.
Qed.

(** C8: when [python run_notebooks.py] exits with a nonzero status the
    script ends there: the end of the script is not reached and none of the
    commands after it ([cp], [git add], [git commit], [git push], [cd ..],
    [git checkout], [conda deactivate], [mail]) has run.  More generally,
    whichever simple command of the script fails, only the commands before
    it and itself have run. *)
Theorem failed_notebook_run_publishes_nothing
        (status : Shell.command -> nat) :
  status Shell.python_run_notebooks <> 0%nat ->
  snd (Shell.run_notebooks_sh status) = false
  /\ (forall c, In c (Shell.ran (fst (Shell.run_notebooks_sh status))) ->
                Shell.after_notebooks c = false /\ Shell.publishes c = false)
  /\ (forall pre post l c,
         Shell.script = pre ++ Shell.Simple l c :: post ->
         status c <> 0%nat ->
         forall c', In c' (Shell.ran (fst (Shell.run_notebooks_sh status))) ->
                    In c' (Shell.commands pre) \/ c' = c).
Proof.
  intros Hfail.
  assert (Hsplit :
            Shell.script
            = firstn 21 Shell.script
                     ++ Shell.Simple 31 Shell.python_run_notebooks
                     :: skipn 22 Shell.script) by reflexivity.
  destruct (script_stops_at_failure status _ _ _ _ Hsplit Hfail) as [Hd Hr].
  split; [exact Hd|]. split.
  - intros c H. destruct (Hr c H) as [H'| ->]; [|split; reflexivity].
    simpl in H'.
    repeat (destruct H' as [<-|H']; [split; reflexivity|]). destruct H'.
  - intros pre post l c Hs Hc.
    apply (script_stops_at_failure status _ _ _ _ Hs Hc).
Qed.

Lemma failed_notebook_run_witness :
  Shell.notebooks_fail Shell.python_run_notebooks <> 0%nat
  /\ snd (Shell.run_notebooks_sh Shell.notebooks_fail) = false
  /\ ~ In Shell.git_push
          (Shell.ran (fst (Shell.run_notebooks_sh Shell.notebooks_fail))).
Proof.
  assert (H : Shell.notebooks_fail Shell.python_run_notebooks <> 0%nat)
    by (simpl; discriminate).
  destruct (failed_notebook_run_publishes_nothing Shell.notebooks_fail H)
    as [Hd [Hr _]].
  split; [exact H|]. split; [exact Hd|].
  intros Hin. destruct (Hr _ Hin) as [Ha _]. discriminate Ha.
Defined.

Lemma exec_ran_until_failure (status : Shell.command -> nat)
      (l : nat) (c : Shell.command) (post : list Shell.step) :
  status c <> 0%nat ->
  forall (pre : list Shell.step) (sh : Shell.shell),
    Shell.errexit sh = true ->
    (forall c0, In c0 (Shell.commands pre) -> status c0 = 0%nat) ->
    Shell.ran (fst (Shell.exec status sh (pre ++ Shell.Simple l c :: post)))
    = c :: rev (Shell.commands pre) ++ Shell.ran sh.
Proof.
  intros Hc. induction pre as [|s pre IH]; intros sh He Hok.
  - simpl. apply Nat.eqb_neq in Hc. now rewrite Hc, He.
  - destruct s as [|l' c0|l' c0|l' c0]; simpl.
    + rewrite IH; auto.
    + rewrite (Hok c0) by (simpl; auto). simpl.
      rewrite IH; simpl; auto.
      * now rewrite <- app_assoc.
      * intros c1 H1. apply Hok. simpl. auto.
    + rewrite IH; simpl; auto.
      * now rewrite <- app_assoc.
      * intros c1 H1. apply Hok. simpl. auto.
    + rewrite IH; simpl; auto.
      * now rewrite <- app_assoc.
      * intros c1 H1. apply Hok. simpl. auto.
Qed.

Lemma script_ran_until_failure (status : Shell.command -> nat)
      (pre post : list Shell.step) (l : nat) (c : Shell.command) :
  Shell.script = pre ++ Shell.Simple l c :: post ->
  status c <> 0%nat ->
  (forall c0, In c0 (Shell.commands pre) -> status c0 = 0%nat) ->
  Shell.ran (fst (Shell.run_notebooks_sh status))
  = c :: rev (Shell.commands pre).
Proof.
  intros Hsplit Hc Hok.
  destruct (script_split_has_set_e _ _ _ _ Hsplit) as [pre' ->].
  unfold Shell.run_notebooks_sh. rewrite Hsplit.
  change (Shell.exec status Shell.start
            ((Shell.SetE :: pre') ++ Shell.Simple l c :: post))
    with (Shell.exec status
            {| Shell.errexit := true; Shell.ran := [];
               Shell.last_status := 0 |}
            (pre' ++ Shell.Simple l c :: post)).
  rewrite (exec_ran_until_failure status l c post Hc pre'); auto.
  now rewrite app_nil_r.
Qed.

(** C10: when [git commit] exits with a nonzero status the script ends
    there: [git push] and [mail] are never run.  When every other command
    succeeds, everything up to the commit has run: the notebooks were
    executed and the commit attempted. *)
Theorem failed_commit_skips_push_and_mail (status : Shell.command -> nat) :
  status Shell.git_commit <> 0%nat ->
  snd (Shell.run_notebooks_sh status) = false
  /\ ~ In Shell.git_push (Shell.ran (fst (Shell.run_notebooks_sh status)))
  /\ ~ In Shell.mail_finished
          (Shell.ran (fst (Shell.run_notebooks_sh status)))
  /\ ((forall c, c <> Shell.git_commit -> status c = 0%nat) ->
      Shell.ran (fst (Shell.run_notebooks_sh status))
      = rev (Shell.commands (firstn 26 Shell.script))).
Proof.
  intros Hfail.
  assert (Hsplit :
            Shell.script
            = firstn 25 Shell.script
                     ++ Shell.Simple 37 Shell.git_commit
                     :: skipn 26 Shell.script) by reflexivity.
  destruct (script_stops_at_failure status _ _ _ _ Hsplit Hfail) as [Hd Hr].
  split; [exact Hd|].
  assert (Hnot : forall c, c <> Shell.git_commit ->
                           ~ In c (Shell.commands (firstn 25 Shell.script)) ->
                           ~ In c (Shell.ran
                                     (fst (Shell.run_notebooks_sh status)))).
  { intros c Hne Hpre Hin. destruct (Hr c Hin); auto. }
  split; [|split].
  - apply Hnot; [discriminate|]. simpl. intros H.
    repeat (destruct H as [H|H]; [discriminate H|]). exact H.
  - apply Hnot; [discriminate|]. simpl. intros H.
    repeat (destruct H as [H|H]; [discriminate H|]). exact H.
  - intros Hok.
    rewrite (script_ran_until_failure status _ _ _ _ Hsplit Hfail).
    + reflexivity.
    + intros c0 H0. apply Hok. intros ->. simpl in H0.
      repeat (destruct H0 as [H0|H0]; [discriminate H0|]). exact H0.
Qed.

Lemma failed_commit_witness :
  Shell.commit_fails Shell.git_commit <> 0%nat
  /\ ~ In Shell.git_push
          (Shell.ran (fst (Shell.run_notebooks_sh Shell.commit_fails)))
  /\ In Shell.python_run_notebooks
        (Shell.ran (fst (Shell.run_notebooks_sh Shell.commit_fails))).
Proof.
  assert (H : Shell.commit_fails Shell.git_commit <> 0%nat)
    by (simpl; discriminate).
  destruct (failed_commit_skips_push_and_mail Shell.commit_fails H)
    as [_ [Hpush [_ Hran]]].
  split; [exact H|]. split; [exact Hpush|].
  rewrite Hran.
  - simpl. tauto.
  - intros c Hc. destruct c; try reflexivity. congruence.
Defined.

(** ** Leaving the multi-instrument loop through [break] *)

Lemma multi_loop_step (fit : datasets -> string -> R -> R) (n : nat)
      (ds : datasets) (fits : nat) (masks : list (string * list bool)) :
  multi_loop fit (S n) ds fits masks
  = if all_below_10 (multi_clipped fit ds)
    then {| final_data := ds; last_masks := multi_masks fit ds;
            multi_passes := S fits; multi_converged := true |}
    else multi_loop fit n (truncate fit ds) (S fits) (multi_masks fit ds).
Proof. reflexivity. Qed.

Lemma multi_loop_converged (fit : datasets -> string -> R -> R) (n : nat) :
  forall ds fits masks,
    multi_converged (multi_loop fit n ds fits masks) = true ->
    last_masks (multi_loop fit n ds fits masks)
    = multi_masks fit (final_data (multi_loop fit n ds fits masks))
    /\ all_below_10
         (multi_clipped fit (final_data (multi_loop fit n ds fits masks)))
       = true.
Proof.
  induction n as [|n IH]; intros ds fits masks.
  - simpl. discriminate.
  - rewrite multi_loop_step.
    destruct (all_below_10 (multi_clipped fit ds)) eqn:E.
    + simpl. auto.
    + apply IH.
Qed.

Lemma all_below_10_le_9 (clipped : list nat) :
  all_below_10 clipped = true -> Forall (fun c => (c <= 9)%nat) clipped.
Proof.
  unfold all_below_10. intros H. apply Forall_forall. intros c Hc.
  rewrite forallb_forall in H. specialize (H c Hc).
  apply Nat.ltb_lt in H. lia.
Qed.

(** C9: in the multi-instrument loop, a pass in which every instrument has
    fewer than 10 flagged points ends the loop with the arrays exactly as
    that pass found them.  Hence, whenever the loop leaves through [break],
    the masks of the last pass are masks of the returned data, none of them
    was applied, and each flags at most 9 points, which are still in the
    data. *)
Theorem break_leaves_flagged_points (fit : datasets -> string -> R -> R) :
  (forall n ds fits masks,
      all_below_10 (multi_clipped fit ds) = true ->
      multi_loop fit (S n) ds fits masks
      = {| final_data := ds; last_masks := multi_masks fit ds;
           multi_passes := S fits; multi_converged := true |})
  /\ (forall ds,
         multi_converged (multi_sigma_clip fit ds) = true ->
         last_masks (multi_sigma_clip fit ds)
         = multi_masks fit (final_data (multi_sigma_clip fit ds))
         /\ Forall (fun c => (c <= 9)%nat)
                   (multi_clipped fit (final_data (multi_sigma_clip fit ds)))).
Proof.
  split.
  - intros n ds fits masks H. now rewrite multi_loop_step, H.
  - intros ds H. unfold multi_sigma_clip in *.
    destruct (multi_loop_converged fit 10 ds 0 [] H) as [Hm Hc].
    split; [exact Hm|]. now apply all_below_10_le_9.
Qed.

Lemma flagged_run :
  QExec.multi_sigma_clip flat_multi_fitQ flagged_datasets
  = {| QExec.qfinal_data := flagged_datasets;
       QExec.qlast_masks :=
         [("Kepler"%string, (repeat true 21 ++ repeat false 9)%list)];
       QExec.qmulti_passes := 1; QExec.qmulti_converged := true |}.
Proof. vm_compute. reflexivity. Qed.

Lemma break_leaves_flagged_points_witness :
  multi_converged
    (multi_sigma_clip flat_multi_fit (QExec.to_Rs flagged_datasets)) = true
  /\ final_data
       (multi_sigma_clip flat_multi_fit (QExec.to_Rs flagged_datasets))
     = QExec.to_Rs flagged_datasets
  /\ multi_clipped flat_multi_fit (QExec.to_Rs flagged_datasets) = [9%nat]
  /\ last_masks
       (multi_sigma_clip flat_multi_fit (QExec.to_Rs flagged_datasets))
     = multi_masks flat_multi_fit (QExec.to_Rs flagged_datasets).
Proof.
  assert (Hrun : multi_sigma_clip flat_multi_fit
                                  (QExec.to_Rs flagged_datasets)
                 = QExec.result_to_R
                     (QExec.multi_sigma_clip flat_multi_fitQ
                                             flagged_datasets)).
  { apply (multi_sigma_clip_Q2R flat_multi_fitQ flat_multi_fit
                                flat_multi_fit_compat). }
  assert (Hconv : multi_converged
                    (multi_sigma_clip flat_multi_fit
                                      (QExec.to_Rs flagged_datasets)) = true).
  { rewrite Hrun, flagged_run. reflexivity. }
  assert (Hdata : final_data
                    (multi_sigma_clip flat_multi_fit
                                      (QExec.to_Rs flagged_datasets))
                  = QExec.to_Rs flagged_datasets).
  { rewrite Hrun, flagged_run. reflexivity. }
  destruct (break_leaves_flagged_points flat_multi_fit) as [_ Hbreak].
  destruct (Hbreak (QExec.to_Rs flagged_datasets) Hconv) as [Hmasks _].
  split; [exact Hconv|]. split; [exact Hdata|]. split.
  - rewrite (multi_clipped_Q2R flat_multi_fitQ flat_multi_fit
                               flat_multi_fit_compat).
    vm_compute. reflexivity.
  - rewrite Hmasks, Hdata. reflexivity.
Defined.

(** ** No lower bound on what survives *)

Lemma sigma_clip_loop_step (x y : list R) (fit : list R -> list R -> R -> R)
      (n : nat) (mask : list bool) (num fits : nat) (model : list bool) :
  sigma_clip_loop x y fit (S n) mask num fits model
  = if Nat.eqb num (count_true (clip_pass x y fit mask))
    then {| final_mask := clip_pass x y fit mask; model_mask := mask;
            passes := S fits; converged := true |}
    else sigma_clip_loop x y fit n (clip_pass x y fit mask)
                         (count_true (clip_pass x y fit mask)) (S fits) mask.
Proof. reflexivity. Qed.

Lemma Rleb_refl (a : R) : Rleb a a = true.
Proof. unfold Rleb. destruct (Rle_dec a a); auto. lra. Qed.

Lemma sort_repeat (c : R) (n : nat) : sort Rleb (repeat c n) = repeat c n.
Proof.
  induction n as [|n IH]; simpl; auto.
  rewrite IH. destruct n; simpl; auto. now rewrite Rleb_refl.
Qed.

Lemma nth_repeat_lt (c : R) (n i : nat) :
  (i < n)%nat -> nth i (repeat c n) 0 = c.
Proof.
  revert i; induction n as [|n IH]; intros i Hi; [lia|].
  destruct i; simpl; auto. apply IH. lia.
Qed.

Lemma median_repeat (c : R) (n : nat) :
  (0 < n)%nat -> median (repeat c n) = c.
Proof.
  intros Hn. unfold median. rewrite sort_repeat, repeat_length.
  assert (H2 : (n / 2 < n)%nat) by (apply Nat.div_lt; lia).
  destruct (Nat.even n).
  - rewrite !nth_repeat_lt by lia. lra.
  - now apply nth_repeat_lt.
Qed.

Lemma map_repeat (A B : Type) (f : A -> B) (a : A) (n : nat) :
  map f (repeat a n) = repeat (f a) n.
Proof. induction n; simpl; congruence. Qed.

(** When all residuals are equal the scale is zero and the strict test
    rejects every point. *)
Lemma clip_mask_constant (c : R) (n : nat) :
  clip_mask (repeat c n) = repeat false n.
Proof.
  destruct n as [|n]; [reflexivity|].
  unfold clip_mask, robust_sigma.
  rewrite (median_repeat c (S n)) by lia.
  rewrite !map_repeat, (median_repeat _ (S n)) by lia.
  f_equal. unfold Rltb.
  destruct (Rlt_dec (Rabs (c - c)) (7 * sqrt ((c - c) ^ 2))) as [H|H]; auto.
  exfalso. replace (c - c) with 0 in H by lra.
  replace (0 ^ 2) with 0 in H by ring.
  rewrite sqrt_0, Rabs_R0 in H. lra.
Qed.

Lemma vsub_repeat (a b : R) (n : nat) :
  vsub (repeat a n) (repeat b n) = repeat (a - b) n.
Proof. induction n; simpl; congruence. Qed.

Lemma select_none (A : Type) (n : nat) (a : list A) :
  select (repeat false n) a = [].
Proof.
  revert a; induction n as [|n IH]; intros [|v a]; simpl; auto.
Qed.

Lemma assign_masked_none (n : nat) (new : list bool) :
  assign_masked (repeat false n) new = repeat false n.
Proof. induction n; simpl; congruence. Qed.

Lemma assign_masked_ones (n : nat) :
  assign_masked (ones n) (repeat false n) = repeat false n.
Proof. unfold ones. induction n; simpl; congruence. Qed.

Lemma count_true_none (n : nat) : count_true (repeat false n) = 0%nat.
Proof. unfold count_true. induction n; simpl; auto. Qed.

Lemma select_ones_repeat (A : Type) (a : A) (n : nat) :
  select (ones n) (repeat a n) = repeat a n.
Proof.
  rewrite <- (repeat_length a n) at 1. apply select_ones.
Qed.

Lemma clip_pass_constant_first (n : nat) :
  clip_pass (repeat 0 n) (repeat 0 n) flat_fit (ones n) = repeat false n.
Proof.
  unfold clip_pass, residuals, build_model.
  rewrite !select_ones_repeat, map_repeat. unfold flat_fit.
  rewrite vsub_repeat, clip_mask_constant. apply assign_masked_ones.
Qed.

Lemma clip_pass_constant_second (x y : list R) (n : nat) :
  clip_pass x y flat_fit (repeat false n) = repeat false n.
Proof.
  unfold clip_pass. apply assign_masked_none.
Qed.

Lemma sigma_clip_constant (n : nat) :
  converged (sigma_clip (repeat 0 n) (repeat 0 n) flat_fit) = true
  /\ final_mask (sigma_clip (repeat 0 n) (repeat 0 n) flat_fit)
     = repeat false n.
Proof.
  unfold sigma_clip. rewrite repeat_length, length_ones.
  rewrite sigma_clip_loop_step, clip_pass_constant_first, count_true_none.
  destruct n as [|n]; [simpl; auto|].
  change (Nat.eqb (S n) 0) with false. cbv iota.
  rewrite sigma_clip_loop_step, clip_pass_constant_second, count_true_none.
  simpl. auto.
Qed.

Lemma multi_mask_constant (ds : datasets) (name : string) (n : nat)
      (e : list R) (texp : R) :
  multi_mask flat_multi_fit ds name
             {| ds_t := repeat 0 n; ds_y := repeat 0 n; ds_yerr := e;
                ds_texp := texp |}
  = repeat false n.
Proof.
  unfold multi_mask, flat_multi_fit. simpl.
  now rewrite map_repeat, vsub_repeat, clip_mask_constant.
Qed.

Lemma multi_sigma_clip_constant (n : nat) :
  multi_sigma_clip flat_multi_fit (constant_datasets (n + 10))
  = {| final_data := constant_datasets 0;
       last_masks := multi_masks flat_multi_fit (constant_datasets 0);
       multi_passes := 2; multi_converged := true |}.
Proof.
  assert (E1 : multi_clipped flat_multi_fit (constant_datasets (n + 10))
               = [(n + 10)%nat]).
  { unfold multi_clipped, constant_datasets. simpl map.
    now rewrite multi_mask_constant, count_true_none, repeat_length,
      Nat.sub_0_r. }
  assert (E2 : truncate flat_multi_fit (constant_datasets (n + 10))
               = constant_datasets 0).
  { unfold truncate, constant_datasets. simpl map.
    now rewrite multi_mask_constant, !select_none. }
  assert (E3 : multi_clipped flat_multi_fit (constant_datasets 0) = [0%nat])
    by reflexivity.
  assert (E4 : Nat.ltb (n + 10) 10 = false) by (apply Nat.ltb_ge; lia).
  unfold multi_sigma_clip.
  rewrite multi_loop_step, E1. unfold all_below_10 at 1. simpl forallb.
  rewrite E4. simpl andb. cbv iota.
  rewrite E2, multi_loop_step, E3. reflexivity.
Qed.

Lemma nested_small_run :
  sigma_clip (map Q2R (times 9)) (map Q2R nested_small_y) flat_fit
  = {| final_mask := (repeat true 3 ++ repeat false 6)%list;
       model_mask := (repeat true 3 ++ repeat false 6)%list;
       passes := 3; converged := true |}.
Proof.
  rewrite (sigma_clip_Q2R _ _ flat_fitQ flat_fit flat_fit_compat).
  vm_compute. reflexivity.
Qed.

Lemma nested_multi_run :
  QExec.multi_sigma_clip flat_multi_fitQ nested_datasets
  = {| QExec.qfinal_data := nested_survivors;
       QExec.qlast_masks := [("Kepler"%string, repeat true 12)];
       QExec.qmulti_passes := 3; QExec.qmulti_converged := true |}.
Proof. vm_compute. reflexivity. Qed.

(** C7: nothing in either loop bounds from below what is left.  For every
    size there is a light curve of that size of which [sigma_clip] clips
    every point, and a dataset with 10 points more of which the
    multi-instrument loop leaves empty arrays (constant residuals: the
    scale is zero and the strict test rejects everything); both runs end
    through the ordinary [break].  With survivors: on nine points in three
    nested levels [sigma_clip] converges after three passes with three
    points left, and on 42 points in three nested levels the
    multi-instrument loop converges after three passes with 12 left. *)
Theorem no_lower_bound_on_survivors :
  (forall n : nat, exists x y fit,
      List.length x = n /\ List.length y = n
      /\ converged (sigma_clip x y fit) = true
      /\ count_true (final_mask (sigma_clip x y fit)) = 0%nat)
  /\ (forall n : nat, exists fit ds,
         well_formed ds
         /\ Forall (fun nd : string * dataset =>
                      List.length (ds_t (snd nd)) = (n + 10)%nat) ds
         /\ multi_converged (multi_sigma_clip fit ds) = true
         /\ all_empty (final_data (multi_sigma_clip fit ds)))
  /\ (List.length (map Q2R nested_small_y) = 9%nat
      /\ converged (sigma_clip (map Q2R (times 9)) (map Q2R nested_small_y)
                               flat_fit) = true
      /\ count_true
           (final_mask (sigma_clip (map Q2R (times 9))
                                   (map Q2R nested_small_y) flat_fit))
         = 3%nat)
  /\ (sizes nested_datasets = [42%nat]
      /\ sizes nested_survivors = [12%nat]
      /\ multi_sigma_clip flat_multi_fit (QExec.to_Rs nested_datasets)
         = {| final_data := QExec.to_Rs nested_survivors;
              last_masks := [("Kepler"%string, repeat true 12)];
              multi_passes := 3; multi_converged := true |}).
Proof.
  split; [|split; [|split]].
  - intros n. exists (repeat 0 n), (repeat 0 n), flat_fit.
    destruct (sigma_clip_constant n) as [Hc Hm].
    rewrite Hm, count_true_none, repeat_length. auto.
  - intros n. exists flat_multi_fit, (constant_datasets (n + 10)).
    rewrite multi_sigma_clip_constant. simpl.
    repeat split.
    + constructor; [|constructor]. simpl. now rewrite !repeat_length.
    + constructor; [|constructor]. simpl. now rewrite repeat_length.
    + constructor; [|constructor]. simpl. auto.
  - rewrite nested_small_run. repeat split.
  - split; [reflexivity|]. split; [reflexivity|].
    rewrite (multi_sigma_clip_Q2R flat_multi_fitQ flat_multi_fit
                                  flat_multi_fit_compat).
    now rewrite nested_multi_run.
Qed.

(** ** Running a loop again *)

Lemma residuals_length (x y : list R) (fit : list R -> list R -> R -> R)
      (mask : list bool) :
  List.length x = List.length y -> List.length mask = List.length x ->
  List.length (residuals x y fit mask) = count_true mask.
Proof.
  intros Hxy Hm. unfold residuals.
  rewrite vsub_length, length_map, !select_length by congruence. lia.
Qed.

Lemma clip_pass_new_length (x y : list R) (fit : list R -> list R -> R -> R)
      (mask : list bool) :
  List.length x = List.length y -> List.length mask = List.length x ->
  List.length (clip_mask (residuals x y fit mask)) = count_true mask.
Proof.
  intros Hxy Hm. now rewrite clip_mask_length, residuals_length.
Qed.

(** A run that left through [break] stopped at a mask on which the pass
    keeps every point. *)
Lemma sigma_clip_loop_converged (x y : list R)
      (fit : list R -> list R -> R -> R) (n : nat) :
  List.length x = List.length y ->
  forall mask num fits model,
    List.length mask = List.length x ->
    num = count_true mask ->
    converged (sigma_clip_loop x y fit n mask num fits model) = true ->
    List.length (final_mask (sigma_clip_loop x y fit n mask num fits model))
    = List.length x
    /\ all_true
         (clip_mask
            (residuals x y fit
               (final_mask (sigma_clip_loop x y fit n mask num fits model))))
       = true.
Proof.
  intros Hxy. induction n as [|n IH]; intros mask num fits model Hm Hnum.
  - simpl. discriminate.
  - rewrite sigma_clip_loop_step.
    destruct (Nat.eqb num (count_true (clip_pass x y fit mask))) eqn:E.
    + intros _. simpl. apply Nat.eqb_eq in E. subst num.
      assert (Hall : all_true (clip_mask (residuals x y fit mask)) = true).
      { apply (assign_masked_same_count mask).
        - now apply clip_pass_new_length.
        - symmetry. exact E. }
      unfold clip_pass. rewrite (assign_masked_all_true mask _ Hall). auto.
    + apply IH; auto.
      unfold clip_pass. now rewrite assign_masked_length.
Qed.

Lemma residuals_of_selected (x y : list R) (fit : list R -> list R -> R -> R)
      (mask : list bool) :
  List.length x = List.length y -> List.length mask = List.length x ->
  residuals (select mask x) (select mask y) fit
            (ones (List.length (select mask x)))
  = residuals x y fit mask.
Proof.
  intros Hxy Hm. unfold residuals, build_model.
  rewrite select_ones.
  replace (List.length (select mask x)) with (List.length (select mask y))
    by (rewrite !select_length; congruence).
  now rewrite select_ones.
Qed.

(** C6, as stated, fails when the loop stops at its cap: on the 254 nested
    fluxes every one of the 10 passes clips a level, 6 points are left, and
    a second run on these clips 2 more. *)
Lemma capped_run_is_not_idempotent :
  converged (sigma_clip (map Q2R (times 254)) (map Q2R nested_y) flat_fit)
  = false
  /\ passes (sigma_clip (map Q2R (times 254)) (map Q2R nested_y) flat_fit)
     = 10%nat
  /\ count_true
       (final_mask
          (sigma_clip (map Q2R (times 254)) (map Q2R nested_y) flat_fit))
     = 6%nat
  /\ count_true
       (final_mask (rerun (map Q2R (times 254)) (map Q2R nested_y) flat_fit))
     = 4%nat.
Proof.
  unfold rerun.
  rewrite (sigma_clip_Q2R (times 254) nested_y flat_fitQ flat_fit
                          flat_fit_compat).
  set (m := final_mask (QExec.sigma_clip (times 254) nested_y flat_fitQ)).
  rewrite !select_map.
  rewrite (sigma_clip_Q2R (select m (times 254)) (select m nested_y)
                          flat_fitQ flat_fit flat_fit_compat).
  subst m. vm_compute. repeat split.
Qed.

(** C6, amended: a run that left through [break] is a fixed point.  Run
    again on the points it kept, [sigma_clip] makes one pass and keeps them
    all; run again on the datasets it returned, the multi-instrument loop
    makes one pass and returns them unchanged, with the same masks. *)
Theorem converged_run_is_idempotent :
  (forall (x y : list R) (fit : list R -> list R -> R -> R),
      List.length x = List.length y ->
      converged (sigma_clip x y fit) = true ->
      rerun x y fit
      = {| final_mask := ones (count_true (final_mask (sigma_clip x y fit)));
           model_mask := ones (count_true (final_mask (sigma_clip x y fit)));
           passes := 1; converged := true |})
  /\ (forall (fit : datasets -> string -> R -> R) (ds : datasets),
         multi_converged (multi_sigma_clip fit ds) = true ->
         multi_rerun fit ds
         = {| final_data := final_data (multi_sigma_clip fit ds);
              last_masks := last_masks (multi_sigma_clip fit ds);
              multi_passes := 1; multi_converged := true |}).
Proof.
  split.
  - intros x y fit Hxy Hconv. unfold rerun.
    unfold sigma_clip in Hconv.
    destruct (sigma_clip_loop_converged x y fit 10 Hxy
                (ones (List.length x)) (List.length (ones (List.length x)))
                0 [] (length_ones _)
                (eq_trans (length_ones _) (eq_sym (count_true_ones _)))
                Hconv) as [Hlen Hall].
    fold (sigma_clip x y fit) in Hlen, Hall.
    set (m := final_mask (sigma_clip x y fit)) in *.
    rewrite <- (select_length _ m x Hlen).
    unfold sigma_clip at 1.
    apply sigma_clip_loop_no_outlier.
    + now rewrite residuals_of_selected.
    + now rewrite length_ones, count_true_ones.
  - intros fit ds Hconv. unfold multi_rerun.
    unfold multi_sigma_clip in Hconv.
    destruct (multi_loop_converged fit 10 ds 0 [] Hconv) as [Hm Hc].
    fold (multi_sigma_clip fit ds) in Hm, Hc.
    rewrite Hm. unfold multi_sigma_clip at 1.
    now rewrite multi_loop_step, Hc.
Qed.

Lemma converged_run_witness :
  rerun (map Q2R (times 9)) (map Q2R nested_small_y) flat_fit
  = {| final_mask := ones 3; model_mask := ones 3;
       passes := 1; converged := true |}
  /\ final_data (multi_rerun flat_multi_fit (QExec.to_Rs flagged_datasets))
     = QExec.to_Rs flagged_datasets.
Proof.
  destruct converged_run_is_idempotent as [Heb Hmulti]. split.
  - rewrite (Heb (map Q2R (times 9)) (map Q2R nested_small_y) flat_fit).
    + rewrite nested_small_run. reflexivity.
    + now rewrite !length_map.
    + rewrite nested_small_run. reflexivity.
  - assert (Hrun : multi_sigma_clip flat_multi_fit
                                    (QExec.to_Rs flagged_datasets)
                   = QExec.result_to_R
                       (QExec.multi_sigma_clip flat_multi_fitQ
                                               flagged_datasets)).
    { apply (multi_sigma_clip_Q2R flat_multi_fitQ flat_multi_fit
                                  flat_multi_fit_compat). }
    rewrite (Hmulti flat_multi_fit (QExec.to_Rs flagged_datasets)).
    + rewrite Hrun, flagged_run. reflexivity.
    + rewrite Hrun, flagged_run. reflexivity.
Defined.

(** * Further properties *)

(** ** The observation window of the multi-instrument notebook *)

Lemma np_min_none (a : list R) : np_min a = None <-> a = [].
Proof.
  destruct a as [|v a]; simpl; [tauto|].
  destruct (np_min a); split; discriminate.
Qed.

Lemma np_max_none (a : list R) : np_max a = None <-> a = [].
Proof.
  destruct a as [|v a]; simpl; [tauto|].
  destruct (np_max a); split; discriminate.
Qed.

Lemma np_min_lower (a : list R) (m : R) :
  np_min a = Some m -> In m a /\ forall v, In v a -> m <= v.
Proof.
  revert m; induction a as [|u a IH]; intros m; simpl; [discriminate|].
  destruct (np_min a) as [m'|] eqn:E.
  - intros H; injection H as <-.
    destruct (IH m' eq_refl) as [Hin Hle]. split.
    + unfold Rmin. destruct (Rle_dec u m'); auto.
    + intros v [<-|Hv].
      * apply Rmin_l.
      * eapply Rle_trans; [apply Rmin_r | now apply Hle].
  - intros H; injection H as <-.
    apply np_min_none in E. subst a. split; auto.
    intros v [<-|[]]. lra.
Qed.

Lemma np_max_upper (a : list R) (m : R) :
  np_max a = Some m -> In m a /\ forall v, In v a -> v <= m.
Proof.
  revert m; induction a as [|u a IH]; intros m; simpl; [discriminate|].
  destruct (np_max a) as [m'|] eqn:E.
  - intros H; injection H as <-.
    destruct (IH m' eq_refl) as [Hin Hle]. split.
    + unfold Rmax. destruct (Rle_dec u m'); auto.
    + intros v [<-|Hv].
      * apply Rmax_l.
      * eapply Rle_trans; [now apply Hle | apply Rmax_r].
  - intros H; injection H as <-.
    apply np_max_none in E. subst a. split; auto.
    intros v [<-|[]]. lra.
Qed.

Lemma collect_some (A : Type) (f : A -> option R) (xs : list A)
      (rs : list R) :
  collect f xs = Some rs -> Forall2 (fun x r => f x = Some r) xs rs.
Proof.
  revert rs; induction xs as [|x xs IH]; intros rs; simpl.
  - intros H; injection H as <-. constructor.
  - destruct (f x) as [r|] eqn:E; [|discriminate].
    destruct (collect f xs) as [rs'|]; [|discriminate].
    intros H; injection H as <-. constructor; auto.
Qed.

Lemma collect_none (A : Type) (f : A -> option R) (xs : list A) :
  collect f xs = None <-> Exists (fun x => f x = None) xs.
Proof.
  induction xs as [|x xs IH]; simpl.
  - split; [discriminate | intros H; inversion H].
  - destruct (f x) as [r|] eqn:E.
    + destruct (collect f xs) as [rs|].
      * split; [discriminate|]. intros H. inversion H; subst.
        -- congruence.
        -- apply IH in H1. discriminate.
      * split; [intros _ | reflexivity].
        apply Exists_cons_tl. now apply IH.
    + split; [intros _ | reflexivity]. now apply Exists_cons_hd.
Qed.

Lemma x_min_lower (ds : datasets) (lo : R) :
  x_min ds = Some lo ->
  forall nd t, In nd ds -> In t (ds_t (snd nd)) -> lo <= t.
Proof.
  unfold x_min.
  destruct (collect (fun nd : string * dataset => np_min (ds_t (snd nd))) ds)
    as [mins|] eqn:E; [|discriminate].
  intros Hlo nd t Hnd Ht.
  apply collect_some in E. apply np_min_lower in Hlo as [_ Hlo].
  induction E as [|x r xs rs Hxr E IH]; [destruct Hnd|].
  destruct Hnd as [->|Hnd].
  - apply np_min_lower in Hxr as [_ Hxr].
    eapply Rle_trans; [apply Hlo; left; reflexivity | now apply Hxr].
  - apply IH; auto. intros v Hv. apply Hlo. now right.
Qed.

Lemma x_max_upper (ds : datasets) (hi : R) :
  x_max ds = Some hi ->
  forall nd t, In nd ds -> In t (ds_t (snd nd)) -> t <= hi.
Proof.
  unfold x_max.
  destruct (collect (fun nd : string * dataset => np_max (ds_t (snd nd))) ds)
    as [maxs|] eqn:E; [|discriminate].
  intros Hhi nd t Hnd Ht.
  apply collect_some in E. apply np_max_upper in Hhi as [_ Hhi].
  induction E as [|x r xs rs Hxr E IH]; [destruct Hnd|].
  destruct Hnd as [->|Hnd].
  - apply np_max_upper in Hxr as [_ Hxr].
    eapply Rle_trans; [now apply Hxr | apply Hhi; left; reflexivity].
  - apply IH; auto. intros v Hv. apply Hhi. now right.
Qed.

Lemma x_min_none (ds : datasets) :
  x_min ds = None
  <-> ds = [] \/ Exists (fun nd : string * dataset => ds_t (snd nd) = []) ds.
Proof.
  unfold x_min.
  destruct (collect (fun nd : string * dataset => np_min (ds_t (snd nd))) ds)
    as [mins|] eqn:E.
  - rewrite np_min_none. split.
    + intros ->. destruct ds as [|nd ds]; auto. simpl in E.
      destruct (np_min (ds_t (snd nd))); [|discriminate].
      destruct (collect _ ds); discriminate.
    + intros [->|H]; [simpl in E; congruence|].
      assert (Hn : collect (fun nd : string * dataset =>
                              np_min (ds_t (snd nd))) ds = None).
      { apply collect_none. eapply Exists_impl; [|exact H].
        intros nd Hnd. now apply np_min_none. }
      congruence.
  - split; auto. intros _. right.
    apply collect_none in E. eapply Exists_impl; [|exact E].
    intros nd Hnd. now apply np_min_none.
Qed.

Lemma x_max_none (ds : datasets) :
  x_max ds = None
  <-> ds = [] \/ Exists (fun nd : string * dataset => ds_t (snd nd) = []) ds.
Proof.
  unfold x_max.
  destruct (collect (fun nd : string * dataset => np_max (ds_t (snd nd))) ds)
    as [maxs|] eqn:E.
  - rewrite np_max_none. split.
    + intros ->. destruct ds as [|nd ds]; auto. simpl in E.
      destruct (np_max (ds_t (snd nd))); [|discriminate].
      destruct (collect _ ds); discriminate.
    + intros [->|H]; [simpl in E; congruence|].
      assert (Hn : collect (fun nd : string * dataset =>
                              np_max (ds_t (snd nd))) ds = None).
      { apply collect_none. eapply Exists_impl; [|exact H].
        intros nd Hnd. now apply np_max_none. }
      congruence.
  - split; auto. intros _. right.
    apply collect_none in E. eapply Exists_impl; [|exact E].
    intros nd Hnd. now apply np_max_none.
Qed.

(** X6: the computation of [t0_ref] in the multi-instrument notebook
    raises exactly when there is no dataset or a dataset has no time;
    otherwise every observation time of every instrument lies between
    [x_min] and [x_max], and [x_mid] is [0.5 * (x_min + x_max)]. *)
Theorem reference_time_of_datasets (ds : datasets) :
  (t0_ref ds = None
   <-> ds = [] \/ Exists (fun nd : string * dataset => ds_t (snd nd) = []) ds)
  /\ (forall r, t0_ref ds = Some r ->
        exists lo hi mid,
          x_min ds = Some lo /\ x_max ds = Some hi /\ x_mid ds = Some mid
          /\ mid = 0.5 * (lo + hi)
          /\ (forall nd t, In nd ds -> In t (ds_t (snd nd)) ->
                           lo <= t <= hi)).
Proof.
  unfold t0_ref, x_mid. split.
  - destruct (x_min ds) as [lo|] eqn:Elo.
    + destruct (x_max ds) as [hi|] eqn:Ehi.
      * split; [discriminate|]. intros H.
        apply x_min_none in H. congruence.
      * split; auto. intros _. now apply x_max_none.
    + split; auto. intros _. now apply x_min_none.
  - intros r.
    destruct (x_min ds) as [lo|] eqn:Elo; [|discriminate].
    destruct (x_max ds) as [hi|] eqn:Ehi; [|discriminate].
    intros _.
    exists lo, hi, (0.5 * (lo + hi)).
    repeat split; auto.
    + now apply (x_min_lower ds lo Elo nd).
    + now apply (x_max_upper ds hi Ehi nd).
Qed.

Lemma reference_time_of_datasets_witness :
  exists r lo hi,
    t0_ref (QExec.to_Rs quiet_datasets) = Some r
    /\ x_min (QExec.to_Rs quiet_datasets) = Some lo
    /\ x_max (QExec.to_Rs quiet_datasets) = Some hi.
Proof.
  destruct (reference_time_of_datasets (QExec.to_Rs quiet_datasets))
    as [Hnone Hsome].
  destruct (t0_ref (QExec.to_Rs quiet_datasets)) as [r|] eqn:E.
  - destruct (Hsome r eq_refl) as (lo & hi & mid & Hlo & Hhi & _).
    exists r, lo, hi. auto.
  - exfalso. destruct Hnone as [Hn _].
    destruct (Hn eq_refl) as [H|H]; [discriminate|].
    inversion H as [? ? H1|? ? H1]; subst; [discriminate|].
    inversion H1 as [? ? H2|? ? H2]; subst; [discriminate|].
    inversion H2.
Defined.

(** ** tess.ipynb: aperture selection *)

Lemma argmin_from_inv (a : list R) :
  forall (pre : list R) (best : R) (best_i i : nat),
    i = List.length pre -> best = nth best_i pre 0 ->
    (best_i < i)%nat ->
    (forall j, (j < i)%nat -> best <= nth j pre 0) ->
    (forall j, (j < best_i)%nat -> best < nth j pre 0) ->
    (argmin_from best best_i i a < List.length (pre ++ a))%nat
    /\ (forall j, (j < List.length (pre ++ a))%nat ->
                  nth (argmin_from best best_i i a) (pre ++ a) 0
                  <= nth j (pre ++ a) 0)
    /\ (forall j, (j < argmin_from best best_i i a)%nat ->
                  nth (argmin_from best best_i i a) (pre ++ a) 0
                  < nth j (pre ++ a) 0).
Proof.
  induction a as [|v a IH]; intros pre best best_i i Ei Eb Hi Hle Hlt; simpl.
  - rewrite app_nil_r. subst i best. auto.
  - assert (Hpre : S i = List.length (pre ++ [v]))
      by (rewrite length_app; simpl; lia).
    assert (Hv : nth i (pre ++ [v]) 0 = v)
      by (subst i; rewrite app_nth2, Nat.sub_diag by lia; reflexivity).
    assert (Hold : forall j, (j < i)%nat ->
                             nth j (pre ++ [v]) 0 = nth j pre 0)
      by (intros j Hj; rewrite app_nth1 by lia; reflexivity).
    replace (pre ++ v :: a) with ((pre ++ [v]) ++ a)
      by (rewrite <- app_assoc; reflexivity).
    unfold Rltb. destruct (Rlt_dec v best) as [Hlt'|Hge].
    + apply IH; auto.
      * intros j Hj.
        destruct (Nat.eq_dec j i) as [->|Hne].
        -- rewrite Hv. lra.
        -- rewrite Hold by lia. assert (best <= nth j pre 0)
             by (apply Hle; lia). lra.
      * intros j Hj. rewrite Hold by lia.
        assert (best <= nth j pre 0) by (apply Hle; lia). lra.
    + apply IH; auto.
      * rewrite Hold by lia. exact Eb.
      * intros j Hj.
        destruct (Nat.eq_dec j i) as [->|Hne].
        -- rewrite Hv. lra.
        -- rewrite Hold by lia. apply Hle. lia.
      * intros j Hj. rewrite Hold by lia. now apply Hlt.
Qed.

(** [np.argmin] returns the first index of a smallest value. *)
Lemma np_argmin_spec (a : list R) :
  a <> [] ->
  exists k, np_argmin a = Some k
            /\ (k < List.length a)%nat
            /\ (forall j, (j < List.length a)%nat -> nth k a 0 <= nth j a 0)
            /\ (forall j, (j < k)%nat -> nth k a 0 < nth j a 0).
Proof.
  destruct a as [|v a]; [congruence|]. intros _.
  exists (argmin_from v 0 1 a). split; [reflexivity|].
  apply (argmin_from_inv a [v] v 0%nat 1%nat); auto.
  - intros j Hj. assert (j = 0%nat) as -> by lia. simpl. lra.
  - intros j Hj. lia.
Qed.

Lemma nth_candidate (A : Type) (g : nat -> A) (d : A) (k : nat) :
  (k < 90)%nat -> nth k (map g (seq 10 90)) d = g (10 + k)%nat.
Proof.
  intros Hk.
  rewrite (nth_indep _ d (g 0%nat)) by (rewrite length_map, length_seq; lia).
  rewrite map_nth, seq_nth by lia. reflexivity.
Qed.

(** X7: the aperture search of tess.ipynb always selects one of the 90
    candidates (the 10 to 99 brightest pixels); its scatter estimate is
    not larger than that of any candidate, and it is strictly smaller than
    that of every smaller candidate: among equally good apertures the
    smallest wins. *)
Theorem pix_mask_minimises_scatter
        (flux : list (list R)) (npix : nat) (order : list nat)
        (savgol_filter : list R -> list R) :
  exists k, (k < 90)%nat
    /\ pix_mask flux npix order savgol_filter
       = Some (aperture npix order (10 + k))
    /\ forall i, (10 <= i < 100)%nat ->
         estimate_scatter_with_mask flux savgol_filter
                                    (aperture npix order (10 + k))
         <= estimate_scatter_with_mask flux savgol_filter
                                       (aperture npix order i)
         /\ ((i < 10 + k)%nat ->
             estimate_scatter_with_mask flux savgol_filter
                                        (aperture npix order (10 + k))
             < estimate_scatter_with_mask flux savgol_filter
                                          (aperture npix order i)).
Proof.
  set (sc := estimate_scatter_with_mask flux savgol_filter).
  assert (Hlen : List.length (scatters flux npix order savgol_filter) = 90%nat).
  { unfold scatters, candidate_masks.
    now rewrite !length_map, length_seq. }
  assert (Hne : scatters flux npix order savgol_filter <> []).
  { intros E. rewrite E in Hlen. discriminate. }
  destruct (np_argmin_spec _ Hne) as (k & Hk & Hk90 & Hle & Hlt).
  rewrite Hlen in Hk90, Hle.
  assert (Hnth : forall j, (j < 90)%nat ->
                   nth j (scatters flux npix order savgol_filter) 0
                   = sc (aperture npix order (10 + j))).
  { intros j Hj. unfold scatters, candidate_masks.
    rewrite map_map. now apply nth_candidate. }
  exists k. split; [exact Hk90|]. split.
  - unfold pix_mask. rewrite Hk. unfold candidate_masks.
    rewrite nth_error_map, (nth_error_nth' _ 0%nat)
      by (rewrite length_seq; lia).
    rewrite seq_nth by lia. reflexivity.
  - intros i Hi. replace i with (10 + (i - 10))%nat by lia.
    rewrite <- !Hnth by lia. split.
    + apply Hle. lia.
    + intros Hik. apply Hlt. lia.
Qed.

Lemma set_true_length (p : nat) (msk : list bool) :
  List.length (set_true p msk) = List.length msk.
Proof.
  revert p; induction msk as [|b msk IH]; intros [|p]; simpl; auto.
Qed.

Lemma nth_set_true (p q : nat) (msk : list bool) :
  nth q (set_true p msk) false
  = (Nat.eqb q p && Nat.ltb q (List.length msk)) || nth q msk false.
Proof.
  revert p q; induction msk as [|b msk IH]; intros p q.
  - simpl. destruct q; rewrite andb_false_r; reflexivity.
  - destruct p as [|p], q as [|q]; simpl; auto.
Qed.

Lemma fold_set_true_length (l : list nat) (msk : list bool) :
  List.length (fold_left (fun m p => set_true p m) l msk) = List.length msk.
Proof.
  revert msk; induction l as [|p l IH]; intros msk; simpl; auto.
  now rewrite IH, set_true_length.
Qed.

Lemma nth_fold_set_true (l : list nat) (msk : list bool) (q : nat) :
  nth q (fold_left (fun m p => set_true p m) l msk) false
  = (existsb (Nat.eqb q) l && Nat.ltb q (List.length msk))
    || nth q msk false.
Proof.
  revert msk; induction l as [|p l IH]; intros msk; simpl; auto.
  rewrite IH, set_true_length, nth_set_true.
  destruct (Nat.eqb q p), (existsb (Nat.eqb q) l),
    (Nat.ltb q (List.length msk)), (nth q msk false); reflexivity.
Qed.

Lemma nth_repeat_false (n q : nat) : nth q (repeat false n) false = false.
Proof.
  revert q; induction n as [|n IH]; intros [|q]; simpl; auto.
Qed.

Lemma nth_aperture (npix : nat) (order : list nat) (i q : nat) :
  nth q (aperture npix order i) false
  = existsb (Nat.eqb q) (firstn i order) && Nat.ltb q npix.
Proof.
  unfold aperture.
  now rewrite nth_fold_set_true, nth_repeat_false, repeat_length, orb_false_r.
Qed.

Lemma aperture_length (npix : nat) (order : list nat) (i : nat) :
  List.length (aperture npix order i) = npix.
Proof.
  unfold aperture. now rewrite fold_set_true_length, repeat_length.
Qed.

Lemma existsb_eqb_In (q : nat) (l : list nat) :
  existsb (Nat.eqb q) l = true <-> In q l.
Proof.
  rewrite existsb_exists. split.
  - intros [x [Hx E]]. apply Nat.eqb_eq in E. now subst.
  - intros H. exists q. split; auto. apply Nat.eqb_refl.
Qed.

Lemma firstn_In_mono (A : Type) (l : list A) (i j : nat) (v : A) :
  (i <= j)%nat -> In v (firstn i l) -> In v (firstn j l).
Proof.
  revert i j; induction l as [|u l IH]; intros i j Hij.
  - now rewrite !firstn_nil.
  - destruct i as [|i]; [intros []|].
    destruct j as [|j]; [lia|]. simpl.
    intros [->|H]; auto. right. apply (IH i j); auto. lia.
Qed.

Lemma firstn_In_all (A : Type) (l : list A) (i : nat) (v : A) :
  In v (firstn i l) -> In v l.
Proof.
  revert i; induction l as [|u l IH]; intros [|i]; simpl; try tauto.
  intros [->|H]; auto. right. now apply (IH i).
Qed.

Lemma NoDup_firstn_prefix (A : Type) (l : list A) (i : nat) :
  NoDup l -> NoDup (firstn i l).
Proof.
  intros Hnd. revert i. induction Hnd as [|p l Hp Hnd IH]; intros i.
  - rewrite firstn_nil. constructor.
  - destruct i; simpl; constructor; auto.
    intros H. apply Hp. now apply firstn_In_all in H.
Qed.

(** A mask given by its entries. *)
Lemma mask_as_map (m : list bool) :
  m = map (fun q => nth q m false) (seq 0 (List.length m)).
Proof.
  apply (nth_ext _ _ false false).
  - now rewrite length_map, length_seq.
  - intros q Hq.
    rewrite (nth_indep (map (fun q => nth q m false) _) false
                       ((fun q => nth q m false) 0%nat))
      by (rewrite length_map, length_seq; lia).
    rewrite (map_nth (fun q => nth q m false)), seq_nth by lia.
    reflexivity.
Qed.

Lemma count_true_map (A : Type) (f : A -> bool) (l : list A) :
  count_true (map f l) = List.length (filter f l).
Proof.
  unfold count_true. induction l as [|v l IH]; simpl; auto.
  destruct (f v); simpl; now rewrite IH.
Qed.

Lemma aperture_count (npix : nat) (order : list nat) (i : nat) :
  NoDup order -> (forall p, In p order -> (p < npix)%nat) ->
  count_true (aperture npix order i) = Nat.min i (List.length order).
Proof.
  intros Hnd Hin.
  rewrite (mask_as_map (aperture npix order i)), aperture_length.
  rewrite count_true_map, <- length_firstn.
  apply Permutation_length, NoDup_Permutation.
  - apply NoDup_filter, seq_NoDup.
  - now apply NoDup_firstn_prefix.
  - intros q. rewrite filter_In, in_seq, nth_aperture, andb_true_iff.
    rewrite existsb_eqb_In, Nat.ltb_lt. split.
    + tauto.
    + intros H.
      assert (q < npix)%nat by (apply Hin; now apply firstn_In_all in H).
      split; [lia | auto].
Qed.

Lemma aperture_nested (npix : nat) (order : list nat) (i j : nat) :
  (i <= j)%nat ->
  mask_subset (aperture npix order i) (aperture npix order j).
Proof.
  intros Hij. split.
  - now rewrite !aperture_length.
  - intros q. rewrite !nth_aperture, !andb_true_iff, !existsb_eqb_In.
    intros [H1 H2]. split; auto. now apply (firstn_In_mono _ order i j).
Qed.

(** X8: when [order] lists distinct pixels of the image, the candidate
    aperture number [i] marks exactly the first [i] pixels of [order]
    ([i] of them, or all when [order] is shorter), and the candidates are
    nested: a larger one contains every smaller one.  So every candidate
    contains the ten brightest pixels. *)
Theorem apertures_are_nested_prefixes (npix : nat) (order : list nat) :
  NoDup order -> (forall p, In p order -> (p < npix)%nat) ->
  (forall i,
      List.length (aperture npix order i) = npix
      /\ count_true (aperture npix order i) = Nat.min i (List.length order)
      /\ (forall p, nth p (aperture npix order i) false = true
                    <-> In p (firstn i order)))
  /\ (forall i j, (i <= j)%nat ->
                  mask_subset (aperture npix order i) (aperture npix order j))
  /\ (forall m, In m (candidate_masks npix order) ->
                mask_subset (aperture npix order 10) m).
Proof.
  intros Hnd Hin. split; [|split].
  - intros i. split; [apply aperture_length|]. split.
    + now apply aperture_count.
    + intros p. rewrite nth_aperture, andb_true_iff, existsb_eqb_In.
      rewrite Nat.ltb_lt. split; [tauto|].
      intros H. split; auto. apply Hin. now apply firstn_In_all in H.
  - intros i j Hij. now apply aperture_nested.
  - intros m Hm. unfold candidate_masks in Hm.
    apply in_map_iff in Hm as [i [<- Hi]]. apply in_seq in Hi.
    apply aperture_nested. lia.
Qed.

Lemma apertures_witness :
  count_true (aperture 5 [3; 0; 4; 1; 2]%nat 2) = 2%nat
  /\ mask_subset (aperture 5 [3; 0; 4; 1; 2]%nat 2)
                 (aperture 5 [3; 0; 4; 1; 2]%nat 4).
Proof.
  assert (Hnd : NoDup [3; 0; 4; 1; 2]%nat).
  { repeat constructor; simpl; intuition lia. }
  assert (Hin : forall p, In p [3; 0; 4; 1; 2]%nat -> (p < 5)%nat).
  { intros p H. simpl in H. intuition lia. }
  destruct (apertures_are_nested_prefixes 5 [3; 0; 4; 1; 2]%nat Hnd Hin)
    as [Hc [Hn _]].
  split.
  - destruct (Hc 2%nat) as [_ [H _]]. exact H.
  - apply Hn. lia.
Defined.

(** ** tess.ipynb: the phase-binned light curve *)

Lemma nth_map_seq (A : Type) (f : nat -> A) (d : A) (n i : nat) :
  (i < n)%nat -> nth i (map f (seq 0 n)) d = f i.
Proof.
  intros Hi.
  rewrite (nth_indep (map f (seq 0 n)) d (f 0%nat))
    by (rewrite length_map, length_seq; lia).
  rewrite (map_nth f), seq_nth by lia. reflexivity.
Qed.

Lemma nth_guard_denom (num : list R) (denom : list nat) (i : nat) :
  (i < List.length num)%nat -> List.length num = List.length denom ->
  nth i (guard_denom num denom) 0%nat
  = if Req_dec_T (nth i num 0) 0 then 1%nat else nth i denom 0%nat.
Proof.
  revert denom i; induction num as [|n num IH]; intros [|d denom] i Hi Hlen;
    simpl in *; try lia.
  destruct i; auto. apply IH; lia.
Qed.

Lemma guard_denom_length (num : list R) (denom : list nat) :
  List.length num = List.length denom ->
  List.length (guard_denom num denom) = List.length num.
Proof.
  revert denom; induction num as [|n num IH]; intros [|d denom] Hlen;
    simpl in *; try lia.
  rewrite IH; lia.
Qed.

Lemma nth_vdiv (a b : list R) (i : nat) :
  (i < List.length a)%nat -> List.length a = List.length b ->
  nth i (vdiv a b) 0 = nth i a 0 / nth i b 0.
Proof.
  revert b i; induction a as [|u a IH]; intros [|v b] i Hi Hlen;
    simpl in *; try lia.
  destruct i; auto. apply IH; lia.
Qed.

Lemma nth_map_INR (l : list nat) (i : nat) :
  nth i (map INR l) 0 = INR (nth i l 0%nat).
Proof. apply (map_nth INR l 0%nat). Qed.

(** A bin without a value has no weight. *)
Lemma empty_bin_has_no_weight (a w : list R) (f : R -> bool) :
  filter f a = [] ->
  filter (fun vw : R * R => f (fst vw)) (combine a w) = [].
Proof.
  revert w; induction a as [|v a IH]; intros [|u w]; simpl; auto.
  destruct (f v); [discriminate|]. apply IH.
Qed.

(** X9: the binned light curve of tess.ipynb never divides by zero: after
    [denom[num == 0] = 1.0] every denominator is at least 1.  Its value
    in a bin is the mean of the fluxes whose folded time falls in the bin,
    and 0 for a bin without points. *)
Theorem binned_curve_is_guarded_mean (x_fold bins flux : list R) (i : nat) :
  (i < List.length bins - 1)%nat ->
  (1 <= nth i (guard_denom (histogram_sum x_fold bins flux)
                           (histogram_count x_fold bins)) 0)%nat
  /\ nth i (binned_curve x_fold bins flux) 0
     = if Nat.eqb (nth i (histogram_count x_fold bins) 0%nat) 0
       then 0
       else nth i (histogram_sum x_fold bins flux) 0
            / INR (nth i (histogram_count x_fold bins) 0%nat).
Proof.
  intros Hi.
  set (num := histogram_sum x_fold bins flux).
  set (denom := histogram_count x_fold bins).
  assert (Hn : List.length num = (List.length bins - 1)%nat)
    by (unfold num, histogram_sum; now rewrite length_map, length_seq).
  assert (Hd : List.length denom = (List.length bins - 1)%nat)
    by (unfold denom, histogram_count; now rewrite length_map, length_seq).
  assert (Hempty : nth i denom 0%nat = 0%nat -> nth i num 0 = 0).
  { unfold num, denom, histogram_sum, histogram_count.
    rewrite !nth_map_seq by lia. intros H.
    apply length_zero_iff_nil in H.
    now rewrite (empty_bin_has_no_weight _ _ _ H). }
  assert (Hg : nth i (guard_denom num denom) 0%nat
               = if Req_dec_T (nth i num 0) 0 then 1%nat
                 else nth i denom 0%nat)
    by (apply nth_guard_denom; lia).
  split.
  - rewrite Hg. destruct (Req_dec_T (nth i num 0) 0) as [E|E]; [lia|].
    destruct (nth i denom 0%nat) eqn:Ed; [|lia].
    exfalso. apply E. now apply Hempty.
  - unfold binned_curve. fold num. fold denom.
    rewrite nth_vdiv, nth_map_INR, Hg
      by (rewrite ?length_map, ?guard_denom_length; lia).
    destruct (Req_dec_T (nth i num 0) 0) as [E|E].
    + rewrite E. destruct (Nat.eqb (nth i denom 0%nat) 0); simpl; lra.
    + destruct (Nat.eqb (nth i denom 0%nat) 0) eqn:Ez; auto.
      apply Nat.eqb_eq in Ez. exfalso. apply E. now apply Hempty.
Qed.

Lemma binned_curve_witness :
  (1 <= nth 0 (guard_denom (histogram_sum [1; 5]%R [0; 2; 4]%R [3; 7]%R)
                           (histogram_count [1; 5]%R [0; 2; 4]%R)) 0)%nat.
Proof.
  assert (Hi : (0 < List.length [0; 2; 4] - 1)%nat) by (simpl; lia).
  destruct (binned_curve_is_guarded_mean [1; 5] [0; 2; 4] [3; 7] 0 Hi)
    as [H _].
  exact H.
Defined.

(** ** One clipping pass keeps nothing or at least half *)

Lemma Rleb_true_iff (a b : R) : Rleb a b = true <-> a <= b.
Proof.
  unfold Rleb. destruct (Rle_dec a b); split; auto; discriminate.
Qed.

Lemma insert_perm (v : R) (l : list R) :
  Permutation (insert Rleb v l) (v :: l).
Proof.
  induction l as [|h t IH]; simpl; auto.
  destruct (Rleb v h); auto.
  eapply perm_trans; [apply perm_skip, IH | apply perm_swap].
Qed.

Lemma sort_perm (l : list R) : Permutation (sort Rleb l) l.
Proof.
  induction l as [|h t IH]; simpl; auto.
  eapply perm_trans; [apply insert_perm | now apply perm_skip].
Qed.

Lemma insert_sorted (v : R) (l : list R) :
  StronglySorted Rle l -> StronglySorted Rle (insert Rleb v l).
Proof.
  induction 1 as [|h t Hs IH Hh]; simpl.
  - repeat constructor.
  - destruct (Rleb v h) eqn:E.
    + apply Rleb_true_iff in E. constructor.
      * now constructor.
      * constructor; auto.
        eapply Forall_impl; [|exact Hh]. intros u Hu. simpl in Hu. lra.
    + assert (Hhv : h <= v).
      { destruct (Rle_dec v h) as [H|H].
        - apply Rleb_true_iff in H. congruence.
        - lra. }
      constructor; auto.
      apply (Permutation_Forall
               (Permutation_sym (insert_perm v t))).
      constructor; auto.
Qed.

Lemma sort_sorted (l : list R) : StronglySorted Rle (sort Rleb l).
Proof.
  induction l as [|h t IH]; simpl; [constructor|].
  now apply insert_sorted.
Qed.

Lemma sorted_nth_le (s : list R) :
  StronglySorted Rle s ->
  forall i j, (i <= j < List.length s)%nat -> nth i s 0 <= nth j s 0.
Proof.
  induction 1 as [|h t Hs IH Hh]; intros i j Hij; simpl in *; [lia|].
  destruct i as [|i], j as [|j]; try lia.
  - lra.
  - rewrite Forall_forall in Hh. apply Hh. apply nth_In. lia.
  - apply IH. lia.
Qed.

Lemma filter_length_perm (f : R -> bool) (l l' : list R) :
  Permutation l l' ->
  List.length (filter f l) = List.length (filter f l').
Proof.
  induction 1 as [|x l l' H IH|x y l|l l' l'' H1 IH1 H2 IH2]; simpl; auto.
  - destruct (f x); simpl; congruence.
  - destruct (f x), (f y); reflexivity.
  - congruence.
Qed.

Lemma filter_length_mono (A : Type) (f g : A -> bool) (l : list A) :
  (forall v, In v l -> f v = true -> g v = true) ->
  (List.length (filter f l) <= List.length (filter g l))%nat.
Proof.
  induction l as [|v l IH]; intros H; simpl; auto.
  assert (IH' : (List.length (filter f l) <= List.length (filter g l))%nat)
    by (apply IH; intros u Hu; apply H; now right).
  destruct (f v) eqn:Ef.
  - rewrite (H v (or_introl eq_refl) Ef). simpl. lia.
  - destruct (g v); simpl; lia.
Qed.

(** In a sorted list the first [k + 1] values are at most the one at
    index [k]. *)
Lemma sorted_count_le (s : list R) (k : nat) (m : R) :
  StronglySorted Rle s -> (k < List.length s)%nat -> nth k s 0 <= m ->
  (S k <= List.length (filter (fun v => Rleb v m) s))%nat.
Proof.
  intros Hs Hk Hm.
  rewrite <- (firstn_skipn (S k) s) at 1.
  rewrite filter_app, length_app.
  assert (E : filter (fun v => Rleb v m) (firstn (S k) s) = firstn (S k) s).
  { apply forallb_filter_id. apply forallb_forall. intros v Hv.
    apply Rleb_true_iff.
    apply (In_nth _ _ 0) in Hv. destruct Hv as [i [Hi <-]].
    rewrite length_firstn in Hi.
    rewrite nth_firstn.
    replace (Nat.ltb i (S k)) with true by (symmetry; apply Nat.ltb_lt; lia).
    eapply Rle_trans; [|exact Hm].
    apply (sorted_nth_le s Hs). lia. }
  rewrite E, length_firstn. lia.
Qed.

(** At least half of the values are not above the median. *)
Lemma median_upper_half (l : list R) :
  (List.length l
   <= 2 * List.length (filter (fun v => Rleb v (median l)) l))%nat.
Proof.
  destruct l as [|v0 l0]; [simpl; lia|].
  set (l := v0 :: l0).
  assert (Hn : (0 < List.length l)%nat) by (simpl; lia).
  rewrite <- (filter_length_perm _ _ _ (sort_perm l)).
  assert (Hs := sort_sorted l).
  assert (Hlen := sort_length _ Rleb l).
  unfold median. set (s := sort Rleb l) in *.
  rewrite Hlen. set (n := List.length l) in *.
  destruct (Nat.even n) eqn:En.
  - apply Nat.even_spec in En. destruct En as [h Eh].
    assert (Hh : (n / 2 = h)%nat)
      by (rewrite Eh, Nat.mul_comm; apply Nat.div_mul; lia).
    rewrite Hh.
    assert (Hle : nth (h - 1) s 0 <= nth h s 0)
      by (apply (sorted_nth_le s Hs); lia).
    assert (Hc := sorted_count_le s (h - 1)
                    ((nth (h - 1) s 0 + nth h s 0) / 2) Hs).
    assert (Hk : (h - 1 < List.length s)%nat) by lia.
    specialize (Hc Hk). lapply Hc; [intros Hc' | lra]. lia.
  - assert (Ho : Nat.odd n = true)
      by (rewrite <- Nat.negb_even, En; reflexivity).
    apply Nat.odd_spec in Ho. destruct Ho as [h Eh].
    assert (Hh : (n / 2 = h)%nat).
    { rewrite Eh. rewrite Nat.add_comm, Nat.mul_comm.
      rewrite Nat.div_add by lia. reflexivity. }
    rewrite Hh.
    assert (Hc := sorted_count_le s h (nth h s 0) Hs).
    assert (Hk : (h < List.length s)%nat) by lia.
    specialize (Hc Hk). lapply Hc; [intros Hc' | lra]. lia.
Qed.

Lemma filter_length_map (A : Type) (h : A -> R) (f : R -> bool)
      (l : list A) :
  List.length (filter f (map h l))
  = List.length (filter (fun v => f (h v)) l).
Proof.
  induction l as [|v l IH]; simpl; auto.
  destruct (f (h v)); simpl; now rewrite IH.
Qed.

(** The threshold test in general form: centre [c], multiplier [k]. *)
Lemma threshold_dichotomy (k c : R) (resid : list R) :
  1 < k ->
  let sigma := sqrt (median (map (fun r => (r - c) ^ 2) resid)) in
  let mask := map (fun r => Rltb (Rabs (r - c)) (k * sigma)) resid in
  (sigma = 0 /\ count_true mask = 0%nat)
  \/ (0 < sigma /\ (List.length resid <= 2 * count_true mask)%nat).
Proof.
  intros Hk sigma mask.
  set (sq := map (fun r => (r - c) ^ 2) resid) in *.
  destruct (Rle_lt_or_eq_dec 0 sigma (sqrt_pos _)) as [Hpos|Hzero].
  - right. split; auto.
    unfold mask. rewrite count_true_map.
    assert (Hhalf := median_upper_half sq).
    unfold sq at 1 3 in Hhalf.
    rewrite length_map, filter_length_map in Hhalf.
    assert (Hmono :
              (List.length
                 (filter (fun r => Rleb ((r - c) ^ 2) (median sq)) resid)
               <= List.length
                    (filter (fun r => Rltb (Rabs (r - c)) (k * sigma))
                            resid))%nat).
    { apply filter_length_mono. intros r _ Hr.
      apply Rleb_true_iff in Hr. apply Rltb_true_iff.
      assert (Habs : Rabs (r - c) <= sigma).
      { unfold sigma. rewrite <- (sqrt_Rsqr_abs (r - c)).
        apply sqrt_le_1_alt. rewrite Rsqr_pow2. exact Hr. }
      assert (sigma < k * sigma) by nra.
      lra. }
    lia.
  - left. split; auto.
    unfold mask. rewrite count_true_map, <- Hzero, Rmult_0_r.
    rewrite (filter_ext _ (fun _ => false)).
    + clear. induction resid; simpl; auto.
    + intros r. unfold Rltb.
      destruct (Rlt_dec (Rabs (r - c)) 0) as [H|H]; auto.
      assert (0 <= Rabs (r - c)) by apply Rabs_pos. lra.
Qed.

Lemma tess_mask_centred_at_zero (resid : list R) :
  tess_rms resid = sqrt (median (map (fun r => (r - 0) ^ 2) resid))
  /\ tess_mask resid
     = map (fun r => Rltb (Rabs (r - 0))
                          (5 * sqrt (median (map (fun r' => (r' - 0) ^ 2)
                                                 resid))))
           resid.
Proof.
  assert (E : map (fun r => (r - 0) ^ 2) resid = map (fun r => r ^ 2) resid)
    by (apply map_ext; intros r; now rewrite Rminus_0_r).
  unfold tess_mask, tess_rms. rewrite E. split; auto.
  apply map_ext. intros r. now rewrite Rminus_0_r.
Qed.

(** X10: one clipping pass never removes a minority only by accident of
    the threshold: the robust scale is either zero, and then the strict
    test rejects every point, or positive, and then at least half of the
    points are kept.  This holds for the centred 7-sigma rule of eb.ipynb
    and of the multi-instrument notebook and for the 5-rms rule of
    tess.ipynb. *)
Theorem clipping_keeps_none_or_at_least_half :
  (forall resid,
      (robust_sigma resid = 0 /\ count_true (clip_mask resid) = 0%nat)
      \/ (0 < robust_sigma resid
          /\ (List.length resid <= 2 * count_true (clip_mask resid))%nat))
  /\ (forall resid,
         (tess_rms resid = 0 /\ count_true (tess_mask resid) = 0%nat)
         \/ (0 < tess_rms resid
             /\ (List.length resid <= 2 * count_true (tess_mask resid))%nat))
  /\ (forall (fit : datasets -> string -> R -> R) ds name d,
         count_true (multi_mask fit ds name d) = 0%nat
         \/ (List.length (multi_mask fit ds name d)
             <= 2 * count_true (multi_mask fit ds name d))%nat).
Proof.
  assert (H7 : 1 < 7) by lra. assert (H5 : 1 < 5) by lra.
  split; [|split].
  - intros resid. apply (threshold_dichotomy 7 (median resid) resid H7).
  - intros resid. destruct (tess_mask_centred_at_zero resid) as [-> ->].
    apply (threshold_dichotomy 5 0 resid H5).
  - intros fit ds name d. unfold multi_mask.
    set (resid := vsub (ds_y d) (map (fit ds name) (ds_t d))).
    rewrite clip_mask_length.
    destruct (threshold_dichotomy 7 (median resid) resid H7)
      as [[_ H]|[_ H]]; [left | right]; exact H.
Qed.

(** ** [sigma_clip] keeps nothing or a fixed fraction *)

Lemma assign_masked_count (mask new : list bool) :
  List.length new = count_true mask ->
  count_true (assign_masked mask new) = count_true new.
Proof.
  unfold count_true.
  revert new; induction mask as [|m mask IH]; intros new Hlen; simpl in *.
  - now destruct new.
  - destruct m; simpl in *.
    + destruct new as [|b new]; [discriminate|]. simpl in *.
      destruct b; simpl; rewrite IH; auto.
    + now apply IH.
Qed.

Lemma clip_pass_count (x y : list R) (fit : list R -> list R -> R -> R)
      (mask : list bool) :
  List.length x = List.length y -> List.length mask = List.length x ->
  count_true (clip_pass x y fit mask) = 0%nat
  \/ (count_true mask <= 2 * count_true (clip_pass x y fit mask))%nat.
Proof.
  intros Hxy Hm. unfold clip_pass.
  rewrite assign_masked_count by now apply clip_pass_new_length.
  rewrite <- (residuals_length x y fit mask Hxy Hm).
  assert (H7 : 1 < 7) by lra.
  destruct (threshold_dichotomy 7 (median (residuals x y fit mask))
                                (residuals x y fit mask) H7)
    as [[_ H]|[_ H]]; [left | right]; exact H.
Qed.

Lemma sigma_clip_loop_count_le (x y : list R)
      (fit : list R -> list R -> R -> R) (n : nat) :
  forall mask num fits model,
    (count_true (final_mask (sigma_clip_loop x y fit n mask num fits model))
     <= count_true mask)%nat.
Proof.
  induction n as [|n IH]; intros mask num fits model.
  - simpl. lia.
  - rewrite sigma_clip_loop_step.
    assert (Hle := assign_masked_count_le mask
                     (clip_mask (residuals x y fit mask))).
    fold (clip_pass x y fit mask) in Hle.
    destruct (Nat.eqb num (count_true (clip_pass x y fit mask))); simpl.
    + exact Hle.
    + eapply Nat.le_trans; [apply IH | exact Hle].
Qed.

Lemma sigma_clip_loop_fraction (x y : list R)
      (fit : list R -> list R -> R -> R) (n : nat) :
  List.length x = List.length y ->
  forall mask num fits model,
    List.length mask = List.length x ->
    let r := sigma_clip_loop x y fit n mask num fits model in
    count_true (final_mask r) = 0%nat
    \/ (count_true mask
        <= 2 ^ (passes r - fits) * count_true (final_mask r))%nat.
Proof.
  intros Hxy. induction n as [|n IH]; intros mask num fits model Hm.
  - right. simpl. rewrite Nat.sub_diag. simpl. lia.
  - cbv zeta. rewrite sigma_clip_loop_step.
    destruct (clip_pass_count x y fit mask Hxy Hm) as [H0|H2].
    + left.
      destruct (Nat.eqb num (count_true (clip_pass x y fit mask))); simpl.
      * exact H0.
      * assert (Hle := sigma_clip_loop_count_le x y fit n
                         (clip_pass x y fit mask)
                         (count_true (clip_pass x y fit mask)) (S fits) mask).
        lia.
    + destruct (Nat.eqb num (count_true (clip_pass x y fit mask)));
        cbn [final_mask passes].
      * right. replace (S fits - fits)%nat with 1%nat by lia.
        change (2 ^ 1)%nat with 2%nat. lia.
      * assert (Hm' : List.length (clip_pass x y fit mask) = List.length x)
          by (unfold clip_pass; now rewrite assign_masked_length).
        destruct (IH (clip_pass x y fit mask)
                     (count_true (clip_pass x y fit mask)) (S fits) mask Hm')
          as [H0|Hf]; [now left|right].
        cbv zeta in Hf.
        assert (Hp := sigma_clip_loop_passes x y fit n
                        (clip_pass x y fit mask)
                        (count_true (clip_pass x y fit mask)) (S fits) mask).
        set (r := sigma_clip_loop x y fit n (clip_pass x y fit mask)
                    (count_true (clip_pass x y fit mask)) (S fits) mask) in *.
        replace (passes r - fits)%nat with (S (passes r - S fits)) by lia.
        rewrite Nat.pow_succ_r'. nia.
Qed.

(** X11: [sigma_clip] of eb.ipynb either clips every point or keeps at
    least the fraction [1 / 2 ^ passes] of the light curve, hence at least
    one point in 1024: a pass with a positive scale keeps at least half of
    what it was given. *)
Theorem sigma_clip_keeps_none_or_a_fraction
        (x y : list R) (fit : list R -> list R -> R -> R) :
  List.length x = List.length y ->
  count_true (final_mask (sigma_clip x y fit)) = 0%nat
  \/ ((List.length x
       <= 2 ^ passes (sigma_clip x y fit)
          * count_true (final_mask (sigma_clip x y fit)))%nat
      /\ (List.length x
          <= 1024 * count_true (final_mask (sigma_clip x y fit)))%nat).
Proof.
  intros Hxy. unfold sigma_clip.
  destruct (sigma_clip_loop_fraction x y fit 10 Hxy (ones (List.length x))
              (List.length (ones (List.length x))) 0 [] (length_ones _))
    as [H0|Hf]; [now left|right].
  cbv zeta in Hf. rewrite count_true_ones, Nat.sub_0_r in Hf.
  split; [exact Hf|].
  assert (Hp := sigma_clip_loop_passes x y fit 10 (ones (List.length x))
                  (List.length (ones (List.length x))) 0 []).
  set (r := sigma_clip_loop x y fit 10 (ones (List.length x))
              (List.length (ones (List.length x))) 0 []) in *.
  assert (Hpow : (2 ^ passes r <= 2 ^ 10)%nat)
    by (apply Nat.pow_le_mono_r; lia).
  change (2 ^ 10)%nat with 1024%nat in Hpow. nia.
Qed.

Lemma sigma_clip_fraction_witness :
  count_true
    (final_mask (sigma_clip (map Q2R (times 9)) (map Q2R nested_small_y)
                            flat_fit)) = 0%nat
  \/ (9 <= 1024 * count_true
             (final_mask (sigma_clip (map Q2R (times 9))
                                     (map Q2R nested_small_y) flat_fit)))%nat.
Proof.
  assert (Hxy : List.length (map Q2R (times 9))
                = List.length (map Q2R nested_small_y))
    by (rewrite !length_map; reflexivity).
  destruct (sigma_clip_keeps_none_or_a_fraction
              (map Q2R (times 9)) (map Q2R nested_small_y) flat_fit Hxy)
    as [H|[_ H]]; [now left | right].
  rewrite length_map in H. exact H.
Defined.

(** ** What [sigma_clip] returns: the mask and the model *)

Lemma assign_masked_same_count_eq (mask new : list bool) :
  count_true (assign_masked mask new) = count_true mask ->
  assign_masked mask new = mask.
Proof.
  revert new; induction mask as [|m mask IH]; intros new H; simpl; auto.
  destruct m.
  - destruct new as [|b new].
    + simpl in H. unfold count_true in *. simpl in H.
      f_equal. apply IH. unfold count_true. lia.
    + assert (Hle := assign_masked_count_le mask new).
      simpl in H. unfold count_true in *. simpl in H.
      destruct b; simpl in H.
      * f_equal. apply IH. unfold count_true. lia.
      * lia.
  - f_equal. apply IH. simpl in H. unfold count_true in *. simpl in H. lia.
Qed.

Lemma sigma_clip_loop_model (x y : list R)
      (fit : list R -> list R -> R -> R) (n : nat) :
  forall mask num fits model,
    num = count_true mask ->
    let r := sigma_clip_loop x y fit (S n) mask num fits model in
    mask_subset (final_mask r) (model_mask r)
    /\ mask_subset (model_mask r) mask
    /\ (converged r = true -> final_mask r = model_mask r)
    /\ (converged r = false ->
        (count_true (final_mask r) < count_true (model_mask r))%nat).
Proof.
  induction n as [|n IH]; intros mask num fits model Hnum; cbv zeta;
    rewrite sigma_clip_loop_step;
    assert (Hsub := clip_pass_subset x y fit mask);
    assert (Hle := assign_masked_count_le mask
                     (clip_mask (residuals x y fit mask)));
    fold (clip_pass x y fit mask) in Hle;
    destruct (Nat.eqb num (count_true (clip_pass x y fit mask))) eqn:E.
  - cbn [final_mask model_mask converged].
    apply Nat.eqb_eq in E.
    repeat split; try apply Hsub; auto; try discriminate.
    intros _. apply assign_masked_same_count_eq.
    fold (clip_pass x y fit mask). lia.
  - cbn [sigma_clip_loop final_mask model_mask converged].
    apply Nat.eqb_neq in E.
    repeat split; try apply Hsub; auto; try discriminate.
    intros _. lia.
  - cbn [final_mask model_mask converged].
    apply Nat.eqb_eq in E.
    repeat split; try apply Hsub; auto; try discriminate.
    intros _. apply assign_masked_same_count_eq.
    fold (clip_pass x y fit mask). lia.
  - destruct (IH (clip_pass x y fit mask)
                 (count_true (clip_pass x y fit mask)) (S fits) mask eq_refl)
      as (H1 & H2 & H3 & H4).
    split; [exact H1|]. split; [|split; assumption].
    eapply mask_subset_trans; [exact H2 | exact Hsub].
Qed.

(** X12: the model that [sigma_clip] returns was built on a mask that
    contains the final mask.  When the loop left through [break] the two
    are equal: the model was fit on exactly the points that are kept.
    When the 10 iterations were used up, the last pass clipped points
    after the model was built: the model was fit on strictly more points
    than the final mask keeps. *)
Theorem sigma_clip_model_and_mask
        (x y : list R) (fit : list R -> list R -> R -> R) :
  mask_subset (final_mask (sigma_clip x y fit))
              (model_mask (sigma_clip x y fit))
  /\ mask_subset (model_mask (sigma_clip x y fit)) (ones (List.length x))
  /\ (converged (sigma_clip x y fit) = true ->
      final_mask (sigma_clip x y fit) = model_mask (sigma_clip x y fit))
  /\ (converged (sigma_clip x y fit) = false ->
      (count_true (final_mask (sigma_clip x y fit))
       < count_true (model_mask (sigma_clip x y fit)))%nat).
Proof.
  unfold sigma_clip.
  apply (sigma_clip_loop_model x y fit 9).
  now rewrite length_ones, count_true_ones.
Qed.

(** ** The multi-instrument loop when the iterations are used up *)

Lemma truncate_well_formed (fit : datasets -> string -> R -> R)
      (ds : datasets) :
  well_formed ds -> well_formed (truncate fit ds).
Proof.
  unfold well_formed, truncate.
  generalize (multi_mask_length fit ds). intros Hlen.
  generalize (multi_mask fit ds) Hlen. clear Hlen. intros mk Hlen H.
  induction H as [|[name d] ds0 [Hy He] H IH]; simpl; constructor; auto.
  simpl in *.
  assert (Hm := Hlen name d Hy).
  rewrite !select_length by congruence. auto.
Qed.

Lemma multi_loop_exhausted (fit : datasets -> string -> R -> R) (n : nat) :
  forall ds fits masks,
    well_formed ds ->
    multi_converged (multi_loop fit (S n) ds fits masks) = false ->
    exists ds',
      well_formed ds'
      /\ Forall2 narrowed ds' ds
      /\ all_below_10 (multi_clipped fit ds') = false
      /\ last_masks (multi_loop fit (S n) ds fits masks)
         = multi_masks fit ds'
      /\ final_data (multi_loop fit (S n) ds fits masks)
         = truncate fit ds'.
Proof.
  induction n as [|n IH]; intros ds fits masks Hwf;
    rewrite multi_loop_step;
    destruct (all_below_10 (multi_clipped fit ds)) eqn:E;
    try (cbn [multi_converged]; discriminate).
  - intros _. exists ds. cbn [multi_loop last_masks final_data].
    repeat split; auto. apply narrowed_refl.
  - intros Hc.
    destruct (IH (truncate fit ds) (S fits) (multi_masks fit ds)
                 (truncate_well_formed fit ds Hwf) Hc)
      as (ds' & Hwf' & Hn & Hnot & Hm & Hd).
    exists ds'. repeat split; auto.
    eapply narrowed_trans; [exact Hn | apply truncate_narrowed].
Qed.

Lemma clipped_instrument_is_shorter
      (fit : datasets -> string -> R -> R) (ds : datasets) :
  well_formed ds ->
  all_below_10 (multi_clipped fit ds) = false ->
  Exists (fun md : (string * list bool) * (string * dataset) =>
            fst (fst md) = fst (snd md)
            /\ (List.length (ds_t (snd (snd md))) + 10
                <= List.length (snd (fst md)))%nat)
         (combine (multi_masks fit ds) (truncate fit ds)).
Proof.
  intros Hwf Hnot. unfold multi_masks, truncate.
  unfold all_below_10, multi_clipped in Hnot.
  assert (Hlen := fun name d => multi_mask_length fit ds name d).
  revert Hnot Hlen. generalize (multi_mask fit ds). intros mk Hnot Hlen.
  induction Hwf as [|[name d] ds0 [Hy He] Hwf IH]; simpl in *.
  - discriminate.
  - destruct (Nat.ltb (List.length (ds_t d) - count_true (mk name d)) 10)
      eqn:E.
    + apply Exists_cons_tl. apply IH. exact Hnot.
    + apply Exists_cons_hd. simpl. split; auto.
      apply Nat.ltb_ge in E.
      rewrite select_length, (Hlen name d Hy) by (rewrite Hlen; auto).
      lia.
Qed.

(** X13: when the multi-instrument loop uses up its iterations instead of
    leaving through [break], the arrays it leaves in [datasets] are those
    of the last fit cut by the last masks: there are datasets, narrowed
    from the input, on which the last model was built, of which
    [last_masks] are the masks and of which the returned arrays are the
    truncation.  For at least one instrument the returned arrays are at
    least 10 points shorter than its mask, that is, than the arrays the
    last model was built on.  The model and the data handed on no longer
    have one length. *)
Theorem exhausted_loop_returns_shorter_arrays
        (fit : datasets -> string -> R -> R) (n : nat)
        (ds : datasets) (fits : nat) (masks : list (string * list bool)) :
  well_formed ds ->
  multi_converged (multi_loop fit (S n) ds fits masks) = false ->
  (exists last_fit : datasets,
      well_formed last_fit
      /\ Forall2 narrowed last_fit ds
      /\ last_masks (multi_loop fit (S n) ds fits masks)
         = multi_masks fit last_fit
      /\ final_data (multi_loop fit (S n) ds fits masks)
         = truncate fit last_fit)
  /\ Exists (fun md : (string * list bool) * (string * dataset) =>
               fst (fst md) = fst (snd md)
               /\ (List.length (ds_t (snd (snd md))) + 10
                   <= List.length (snd (fst md)))%nat)
            (combine (last_masks (multi_loop fit (S n) ds fits masks))
                     (final_data (multi_loop fit (S n) ds fits masks))).
Proof.
  intros Hwf Hc.
  destruct (multi_loop_exhausted fit n ds fits masks Hwf Hc)
    as (ds' & Hwf' & Hn & Hnot & Hm & Hd).
  split.
  - exists ds'. auto.
  - rewrite Hm, Hd. now apply clipped_instrument_is_shorter.
Qed.

(** The loop of the notebook on [deep_datasets]: its ten passes clip 160,
    112, 80, 56, 40, 28, 20, 14, 10 and 10 points, the last mask has 22
    entries and 12 points are left. *)
Lemma exhausted_loop_witness :
  multi_converged (multi_sigma_clip flat_multi_fit
                                    (QExec.to_Rs deep_datasets)) = false
  /\ Exists (fun md : (string * list bool) * (string * dataset) =>
               fst (fst md) = fst (snd md)
               /\ (List.length (ds_t (snd (snd md))) + 10
                   <= List.length (snd (fst md)))%nat)
            (combine
               (last_masks (multi_sigma_clip flat_multi_fit
                                             (QExec.to_Rs deep_datasets)))
               (final_data (multi_sigma_clip flat_multi_fit
                                             (QExec.to_Rs deep_datasets)))).
Proof.
  unfold multi_sigma_clip.
  assert (Hc : multi_converged
                 (multi_loop flat_multi_fit 10 (QExec.to_Rs deep_datasets)
                             0 []) = false).
  { rewrite (multi_loop_Q2R flat_multi_fitQ flat_multi_fit
                            flat_multi_fit_compat 10 deep_datasets 0 []).
    vm_compute. reflexivity. }
  split; [exact Hc|].
  apply (exhausted_loop_returns_shorter_arrays
           flat_multi_fit 9 (QExec.to_Rs deep_datasets) 0 []).
  - apply well_formed_to_Rs. vm_compute. reflexivity.
  - exact Hc.
Defined.

(** ** The driver script: what a later command tells about earlier ones *)

Lemma exec_all_ok (status : Shell.command -> nat) (steps : list Shell.step) :
  (forall l c, In (Shell.Simple l c) steps -> status c = 0%nat) ->
  forall sh,
    snd (Shell.exec status sh steps) = true
    /\ Shell.ran (fst (Shell.exec status sh steps))
       = rev (Shell.commands steps) ++ Shell.ran sh.
Proof.
  induction steps as [|s steps IH]; intros Hok sh.
  - simpl. auto.
  - assert (Hok' : forall l c, In (Shell.Simple l c) steps ->
                               status c = 0%nat)
      by (intros l c H; apply (Hok l c); now right).
    destruct s as [|l c|l c|l c]; simpl.
    + apply (IH Hok' {| Shell.errexit := true; Shell.ran := Shell.ran sh;
                        Shell.last_status := 0 |}).
    + rewrite (Hok l c) by now left. simpl.
      destruct (IH Hok' {| Shell.errexit := Shell.errexit sh;
                           Shell.ran := c :: Shell.ran sh;
                           Shell.last_status := 0 |}) as [H1 H2].
      split; auto. rewrite H2. simpl. now rewrite <- app_assoc.
    + destruct (IH Hok' {| Shell.errexit := Shell.errexit sh;
                           Shell.ran := c :: Shell.ran sh;
                           Shell.last_status := 0 |}) as [H1 H2].
      split; auto. rewrite H2. simpl. now rewrite <- app_assoc.
    + destruct (IH Hok' {| Shell.errexit := Shell.errexit sh;
                           Shell.ran := c :: Shell.ran sh;
                           Shell.last_status := Shell.last_status sh |})
        as [H1 H2].
      split; auto. rewrite H2. simpl. now rewrite <- app_assoc.
Qed.

Lemma script_simple_not_guarded (l : nat) (c : Shell.command) :
  In (Shell.Simple l c) Shell.script -> c <> Shell.git_branch_delete.
Proof.
  intros H Hc. subst c. simpl in H.
  repeat (destruct H as [H|H]; [discriminate H|]). exact H.
Qed.

(** X16: a failing [git branch -D auto_notebooks] never stops the script:
    when every other command succeeds, whatever the status of the branch
    deletion, the script runs to its end and has run every command of the
    file, in the order of the file. *)
Theorem branch_deletion_may_fail (status : Shell.command -> nat) :
  (forall c, c <> Shell.git_branch_delete -> status c = 0%nat) ->
  snd (Shell.run_notebooks_sh status) = true
  /\ Shell.ran (fst (Shell.run_notebooks_sh status))
     = rev (Shell.commands Shell.script)
  /\ In Shell.git_branch_delete
        (Shell.ran (fst (Shell.run_notebooks_sh status)))
  /\ In Shell.mail_finished
        (Shell.ran (fst (Shell.run_notebooks_sh status))).
Proof.
  intros Hok.
  assert (Hall : forall l c, In (Shell.Simple l c) Shell.script ->
                             status c = 0%nat).
  { intros l c H. apply Hok. now apply (script_simple_not_guarded l). }
  destruct (exec_all_ok status Shell.script Hall Shell.start) as [H1 H2].
  unfold Shell.run_notebooks_sh. rewrite H2.
  change (Shell.ran Shell.start) with (@nil Shell.command).
  rewrite app_nil_r. split; [exact H1|]. split; [reflexivity|].
  split; apply in_rev; rewrite rev_involutive; simpl; tauto.
Qed.

Lemma branch_deletion_witness :
  snd (Shell.run_notebooks_sh
         (fun c => match c with Shell.git_branch_delete => 1%nat
                             | _ => 0%nat end)) = true.
Proof.
  destruct (branch_deletion_may_fail
              (fun c => match c with Shell.git_branch_delete => 1%nat
                                  | _ => 0%nat end)) as [H _].
  - intros c Hc. destruct c; try reflexivity. congruence.
  - exact H.
Defined.

Lemma exec_reached (status : Shell.command -> nat) (c' : Shell.command)
      (rest : list Shell.step) (l : nat) (c : Shell.command) :
  forall (pre : list Shell.step) (sh : Shell.shell),
    Shell.errexit sh = true ->
    ~ In c' (Shell.commands pre) -> ~ In c' (Shell.ran sh) ->
    In c' (Shell.ran (fst (Shell.exec status sh (pre ++ rest)))) ->
    In (Shell.Simple l c) pre -> status c = 0%nat.
Proof.
  induction pre as [|s pre IH]; intros sh He Hpre Hran Hin Hc.
  - destruct Hc.
  - destruct s as [|l0 c0|l0 c0|l0 c0]; simpl in *.
    + destruct Hc as [Hc|Hc]; [discriminate|].
      eapply IH; [| exact Hpre | | exact Hin | exact Hc]; auto.
    + destruct (Nat.eqb (status c0) 0) eqn:E0.
      * destruct Hc as [Hc|Hc].
        -- injection Hc as _ <-. now apply Nat.eqb_eq.
        -- eapply IH; [| | | exact Hin | exact Hc]; simpl; auto.
           intros [H|H]; [apply Hpre; now left | now apply Hran].
      * rewrite He in Hin. simpl in Hin. exfalso.
        destruct Hin as [H|H]; [apply Hpre; now left | now apply Hran].
    + destruct Hc as [Hc|Hc]; [discriminate|].
      eapply IH; [| | | exact Hin | exact Hc]; simpl; auto.
      intros [H|H]; [apply Hpre; now left | now apply Hran].
    + destruct Hc as [Hc|Hc]; [discriminate|].
      eapply IH; [| | | exact Hin | exact Hc]; simpl; auto.
      intros [H|H]; [apply Hpre; now left | now apply Hran].
Qed.

Lemma script_prefix_has_set_e (pre rest : list Shell.step) :
  Shell.script = pre ++ rest ->
  pre = [] \/ exists pre', pre = Shell.SetE :: pre'.
Proof.
  destruct pre as [|s pre]; simpl; intros H; [now left|right].
  exists pre. now injection H as <- _.
Qed.

Lemma exec_start_set_e (status : Shell.command -> nat)
      (steps : list Shell.step) :
  Shell.exec status Shell.start (Shell.SetE :: steps)
  = Shell.exec status
               {| Shell.errexit := true; Shell.ran := [];
                  Shell.last_status := 0 |} steps.
Proof. reflexivity. Qed.

Lemma script_reached (status : Shell.command -> nat)
      (pre rest : list Shell.step) (c' : Shell.command) :
  Shell.script = pre ++ rest ->
  ~ In c' (Shell.commands pre) ->
  In c' (Shell.ran (fst (Shell.run_notebooks_sh status))) ->
  forall l c, In (Shell.Simple l c) pre -> status c = 0%nat.
Proof.
  intros Hsplit Hpre Hin l c Hc.
  destruct (script_prefix_has_set_e _ _ Hsplit) as [->|[pre' ->]];
    [destruct Hc|].
  destruct Hc as [Hc|Hc]; [discriminate|].
  revert Hin. unfold Shell.run_notebooks_sh. rewrite Hsplit.
  rewrite <- app_comm_cons, exec_start_set_e. intros Hin.
  apply (exec_reached status c' rest l c pre'
                      {| Shell.errexit := true; Shell.ran := [];
                         Shell.last_status := 0 |});
    auto.
Qed.

Lemma script_simple_not_substituted (l : nat) (c : Shell.command) :
  In (Shell.Simple l c) Shell.script -> c <> Shell.cat_github_api_key.
Proof.
  intros H Hc. subst c. simpl in H.
  repeat (destruct H as [H|H]; [discriminate H|]). exact H.
Qed.

(** X17: a command of the script runs only after every simple command
    before it has succeeded; the two commands whose status the shell
    ignores, the branch deletion guarded by [|| true] and the
    [cat .github_api_key] substituted into the arguments of [git push],
    are not among them.  In particular the completion mail is sent only
    when every other simple command of the script returned 0, and the
    push only after the notebook run, the two [git add] and the commit
    returned 0.  A failing [cat .github_api_key] stops nothing: when
    every other command succeeds, the push and the mail still run. *)
Theorem later_command_means_earlier_success (status : Shell.command -> nat) :
  (forall pre rest c',
      Shell.script = pre ++ rest ->
      ~ In c' (Shell.commands pre) ->
      In c' (Shell.ran (fst (Shell.run_notebooks_sh status))) ->
      forall l c, In (Shell.Simple l c) pre -> status c = 0%nat)
  /\ (In Shell.mail_finished
         (Shell.ran (fst (Shell.run_notebooks_sh status))) ->
      forall l c, In (Shell.Simple l c) Shell.script ->
                  c <> Shell.mail_finished -> status c = 0%nat)
  /\ (In Shell.git_push
         (Shell.ran (fst (Shell.run_notebooks_sh status))) ->
      status Shell.python_run_notebooks = 0%nat
      /\ status Shell.git_add_setup = 0%nat
      /\ status Shell.git_add_notebooks = 0%nat
      /\ status Shell.git_commit = 0%nat)
  /\ ((forall c, c <> Shell.cat_github_api_key -> status c = 0%nat) ->
      snd (Shell.run_notebooks_sh status) = true
      /\ In Shell.cat_github_api_key
            (Shell.ran (fst (Shell.run_notebooks_sh status)))
      /\ In Shell.git_push
            (Shell.ran (fst (Shell.run_notebooks_sh status)))
      /\ In Shell.mail_finished
            (Shell.ran (fst (Shell.run_notebooks_sh status)))).
Proof.
  split; [|split; [|split]].
  - intros pre rest c' Hs Hpre Hin l c Hc.
    apply (script_reached status pre rest c' Hs Hpre Hin l c Hc).
  - intros Hin l c Hc Hne.
    assert (Hs : Shell.script
                 = firstn 31 Shell.script ++ skipn 31 Shell.script)
      by (symmetry; apply firstn_skipn).
    assert (Hpre : ~ In Shell.mail_finished
                      (Shell.commands (firstn 31 Shell.script))).
    { simpl. intros H.
      repeat (destruct H as [H|H]; [discriminate H|]). exact H. }
    apply (script_reached status _ _ _ Hs Hpre Hin l c).
    simpl in Hc. simpl.
    repeat (destruct Hc as [Hc|Hc];
            [try discriminate Hc; injection Hc as <- <-;
             try congruence;
             repeat (first [left; reflexivity | right])|]).
    destruct Hc.
  - intros Hin.
    assert (Hs : Shell.script
                 = firstn 27 Shell.script ++ skipn 27 Shell.script)
      by (symmetry; apply firstn_skipn).
    assert (Hpre : ~ In Shell.git_push
                      (Shell.commands (firstn 27 Shell.script))).
    { simpl. intros H.
      repeat (destruct H as [H|H]; [discriminate H|]). exact H. }
    assert (H := script_reached status _ _ _ Hs Hpre Hin).
    repeat split.
    + apply (H 31%nat). simpl.
      repeat (first [left; reflexivity | right]).
    + apply (H 34%nat). simpl.
      repeat (first [left; reflexivity | right]).
    + apply (H 35%nat). simpl.
      repeat (first [left; reflexivity | right]).
    + apply (H 37%nat). simpl.
      repeat (first [left; reflexivity | right]).
  - intros Hok.
    assert (Hall : forall l c, In (Shell.Simple l c) Shell.script ->
                               status c = 0%nat).
    { intros l c H. apply Hok. now apply (script_simple_not_substituted l). }
    destruct (exec_all_ok status Shell.script Hall Shell.start) as [H1 H2].
    unfold Shell.run_notebooks_sh. rewrite H2.
    change (Shell.ran Shell.start) with (@nil Shell.command).
    rewrite app_nil_r. split; [exact H1|].
    repeat split; apply in_rev; rewrite rev_involutive; simpl; tauto.
Qed.

(** The substitution fails and everything else succeeds. *)
Lemma later_command_witness :
  In Shell.mail_finished
     (Shell.ran (fst (Shell.run_notebooks_sh
                        (fun c => match c with
                                  | Shell.cat_github_api_key => 1%nat
                                  | _ => 0%nat
                                  end))))
  /\ (fun c => match c with
               | Shell.cat_github_api_key => 1%nat
               | _ => 0%nat
               end) Shell.git_commit = 0%nat.
Proof.
  set (status := fun c => match c with
                          | Shell.cat_github_api_key => 1%nat
                          | _ => 0%nat
                          end).
  destruct (later_command_means_earlier_success status)
    as [_ [Hmail [_ Hcat]]].
  assert (Hin : In Shell.mail_finished
                   (Shell.ran (fst (Shell.run_notebooks_sh status)))).
  { apply Hcat. intros c Hc. destruct c; try reflexivity. congruence. }
  split; [exact Hin|].
  apply (Hmail Hin 37%nat Shell.git_commit); [|discriminate].
  simpl. repeat (first [left; reflexivity | right]).
Defined.

(** ** tess.ipynb: the staged optimisation of [build_model] *)

(** X18: [build_model] of tess.ipynb starts its eleven calls of
    [xo.optimize] from [model.test_point] when no [start] is given and
    from [start] otherwise; when no single call lowers the log-posterior
    of the model being built, the returned [map_soln] is at least as
    probable under that model as the starting point.  So the refit
    [build_model(mask, map_soln0)] is no worse, on the clipped data, than
    the solution [map_soln0] it is started from. *)
Theorem tess_refit_is_no_worse_than_its_start
        (point : Type) (logp : point -> R) (test_point : point)
        (optimize : point -> option (list string) -> point) :
  (forall start vars, logp start <= logp (optimize start vars)) ->
  tess_optimize point test_point optimize None
  = tess_optimize point test_point optimize (Some test_point)
  /\ logp test_point <= logp (tess_optimize point test_point optimize None)
  /\ forall map_soln0,
      logp map_soln0
      <= logp (tess_optimize point test_point optimize (Some map_soln0)).
Proof.
  intros Himp.
  assert (H : forall s,
             logp s <= logp (tess_optimize point test_point optimize
                                           (Some s))).
  { intros s. unfold tess_optimize.
    repeat (eapply Rle_trans; [|apply Himp]). lra. }
  split; [reflexivity|]. split; [apply (H test_point)|exact H].
Qed.

Lemma tess_refit_witness :
  toy_logp 8 <= toy_logp (tess_optimize R 1 toy_optimize (Some 8)).
Proof.
  apply (tess_refit_is_no_worse_than_its_start R toy_logp 1 toy_optimize).
  intros start vars. unfold toy_logp, toy_optimize. nra.
Defined.

(** ** quick-tess.ipynb: exposure time and density re-weighting *)

Lemma np_diff_length (a : list R) :
  List.length (np_diff a) = (List.length a - 1)%nat.
Proof.
  induction a as [|u [|v a] IH]; trivial.
  change (np_diff (u :: v :: a)) with ((v - u) :: np_diff (v :: a)).
  simpl List.length in *. rewrite IH. lia.
Qed.

Lemma nth_np_diff (a : list R) :
  forall i, (S i < List.length a)%nat ->
            nth i (np_diff a) 0 = nth (S i) a 0 - nth i a 0.
Proof.
  induction a as [|u [|v a] IH]; intros i Hi; simpl in Hi; try lia.
  change (np_diff (u :: v :: a)) with ((v - u) :: np_diff (v :: a)).
  destruct i as [|i]; [reflexivity|].
  change (nth (S i) ((v - u) :: np_diff (v :: a)) 0)
    with (nth i (np_diff (v :: a)) 0).
  rewrite IH by (simpl; lia). reflexivity.
Qed.

(** X22: the exposure time [texp = np.min(np.diff(x))] is the smallest
    gap between two consecutive cadences: it is one of the gaps and no
    gap is shorter, so it is positive when the times increase strictly.
    With fewer than two cadences there is no gap and [np.min] raises. *)
Theorem texp_is_the_smallest_gap (x : list R) :
  ((List.length x < 2)%nat -> texp x = None)
  /\ ((2 <= List.length x)%nat ->
      exists d,
        texp x = Some d
        /\ (exists i, (S i < List.length x)%nat
                      /\ d = nth (S i) x 0 - nth i x 0)
        /\ (forall i, (S i < List.length x)%nat ->
                      d <= nth (S i) x 0 - nth i x 0)
        /\ ((forall i, (S i < List.length x)%nat ->
                       nth i x 0 < nth (S i) x 0) -> 0 < d)).
Proof.
  unfold texp. split.
  - intros H. apply np_min_none.
    apply length_zero_iff_nil. rewrite np_diff_length. lia.
  - intros H.
    destruct (np_min (np_diff x)) as [d|] eqn:E.
    + exists d. destruct (np_min_lower _ _ E) as [Hin Hle].
      assert (Hex : exists i, (S i < List.length x)%nat
                              /\ d = nth (S i) x 0 - nth i x 0).
      { destruct (In_nth _ _ 0 Hin) as [i [Hi Hd]].
        rewrite np_diff_length in Hi. exists i.
        split; [lia|]. rewrite <- Hd. apply nth_np_diff. lia. }
      split; [reflexivity|]. split; [exact Hex|]. split.
      * intros i Hi. rewrite <- nth_np_diff by exact Hi.
        apply Hle, nth_In. rewrite np_diff_length. lia.
      * intros Hinc. destruct Hex as [i [Hi ->]].
        specialize (Hinc i Hi). lra.
    + apply np_min_none in E.
      apply (f_equal (@List.length R)) in E.
      rewrite np_diff_length in E. simpl in E. lia.
Qed.

Lemma texp_witness :
  exists d, texp [1; 3; 4] = Some d /\ 0 < d.
Proof.
  destruct (texp_is_the_smallest_gap [1; 3; 4]) as [_ H].
  destruct H as [d [Hd [_ [_ Hpos]]]]; [simpl; lia|].
  exists d. split; [exact Hd|]. apply Hpos.
  intros [|[|i]] Hi; simpl in *; try lra. lia.
Defined.



